(** * Window ring of the floating button: model and properties

    Shallow embedding of [WindowRing] from [src/main.py]: the app-name
    normaliser, the grouping done by the constructor, the radial layout
    computed by [paintEvent], and the pointer, keyboard and peek-timer
    handlers.

    Conventions of the model.
    - Python [str] values are byte strings ([string]); [str.lower] is the
      case folding of the ASCII range, other bytes are left as they are.
    - Python [float] values are real numbers ([R]); [math.cos], [math.sin],
      [math.sqrt] and [math.pi] are [cos], [sin], [sqrt] and [PI].
    - Python [int] values are [Z]; loop counters of [enumerate] are [nat].
    - The [defaultdict] holding the groups is an association list in
      insertion order, which is the order a Python [dict] iterates in.
    - Drawing calls have no effect on the state and are left out, except
      the hub centres, which the layout properties speak about. *)

From Stdlib Require Import String Ascii List Bool Arith ZArith Lia.
From Stdlib Require Import Permutation Sorted.
From Stdlib Require Import Reals Lra.
From Stdlib Require Import SpecFloat.
Import ListNotations.

Open Scope string_scope.
Open Scope list_scope.

(** ** Strings as Python uses them *)

(** [c.lower()] on one byte. *)
Definition lower_ascii (c : ascii) : ascii :=
  let n := nat_of_ascii c in
  if (65 <=? n)%nat && (n <=? 90)%nat then ascii_of_nat (n + 32) else c.

(** [s.lower()]. *)
Fixpoint lower (s : string) : string :=
  match s with
  | EmptyString => EmptyString
  | String c s' => String (lower_ascii c) (lower s')
  end.

(** [x in s] for strings: [x] occurs in [s] as a contiguous substring. *)
Fixpoint contains (x s : string) : bool :=
  String.prefix x s ||
  match s with
  | EmptyString => false
  | String _ s' => contains x s'
  end.

(** [any(x in s for x in xs)]. *)
Definition any_in (xs : list string) (s : string) : bool :=
  existsb (fun x => contains x s) xs.

(** ** Window descriptors *)

(** The dict [{'id': ..., 'app': ..., 'title': ...}] built by [get_windows]. *)
Record Window : Type := mkWindow {
  id : string;
  app : string;
  title : string
}.

(** ** [WindowRing._normalize_app_name] *)

(** The body of the method, with [str.lower] as the parameter [to_lower],
    so that facts about it can be stated for any case folding. *)
Definition normalize_with (to_lower : string -> string) (app_name : string)
  : string :=
  let app_lower := to_lower app_name in
  (* Browser consolidation *)
  let browser :=
    if any_in ["chrome"; "chromium"; "brave"; "firefox"; "edge"] app_lower then
      if contains "brave" app_lower then Some "Brave"
      else if contains "firefox" app_lower then Some "Firefox"
      else if contains "chrome" app_lower then Some "Chrome"
      else None
    else None in
  match browser with
  | Some key => key
  | None =>
      (* Code editors *)
      if any_in ["code"; "vscode"; "vscodium"] app_lower then "Code"
      (* Terminals *)
      else if any_in ["terminal"; "konsole"; "qterminal"; "gnome-terminal"]
                     app_lower then "Terminal"
      else app_name
  end.

Definition _normalize_app_name (app_name : string) : string :=
  normalize_with lower app_name.

(** ** Grouping: the loop of [WindowRing.__init__] *)

(** [defaultdict(list)]: keys in insertion order, each with its bucket. *)
Definition Groups : Type := list (string * list Window).

(** [groups[k].append(w)]: extends the bucket of [k], or creates it at the
    end of the dict when [k] is new. *)
Fixpoint groups_append (k : string) (w : Window) (g : Groups) : Groups :=
  match g with
  | [] => [(k, [w])]
  | (k', ws) :: rest =>
      if String.eqb k' k then (k', ws ++ [w]) :: rest
      else (k', ws) :: groups_append k w rest
  end.

(** [groups[k]]; the dict is only read at keys it holds, where no bucket is
    created. *)
Fixpoint groups_get (k : string) (g : Groups) : list Window :=
  match g with
  | [] => []
  | (k', ws) :: rest => if String.eqb k' k then ws else groups_get k rest
  end.

(** [groups.keys()]. *)
Definition groups_keys (g : Groups) : list string := map fst g.

(** [for w in windows: groups[normalize(w['app'])].append(w)]. *)
Definition group_step (g : Groups) (w : Window) : Groups :=
  groups_append (_normalize_app_name (app w)) w g.

Definition group_windows (windows : list Window) : Groups :=
  fold_left group_step windows [].

(** [w] belongs to the bucket of key [k]. *)
Definition in_group (k : string) (w : Window) : bool :=
  String.eqb (_normalize_app_name (app w)) k.

(** ** [sorted] on strings *)

Fixpoint insert_sorted (k : string) (l : list string) : list string :=
  match l with
  | [] => [k]
  | h :: t => if String.leb k h then k :: l else h :: insert_sorted k t
  end.

(** [sorted(keys)]: ascending in Python's string order, which compares
    code points and so agrees with the byte order used here. *)
Definition sorted (l : list string) : list string :=
  fold_right insert_sorted [] l.

(** ** Configuration: the entries of [CONFIG] the ring reads *)

Definition RING_SIZE : Z := 800.
Definition HUB_RADIUS : Z := 190.
Definition SPOKE_LENGTH : Z := 70.
Definition NODE_RADIUS : Z := 16.
Definition PEEK_ENABLED : bool := true.
Definition PEEK_DELAY : Z := 150.
Definition KEYBOARD_NAV : bool := true.

(** ** The ring's state *)

Definition QPointF : Type := (R * R)%type.

(** An entry of [node_positions]: [(QPointF(win_x, win_y), radius, win)]. *)
Definition Node : Type := (QPointF * R * Window)%type.

(** A call of [wmctrl -i -a <id>], tagged with the handler that made it. *)
Inductive Request : Type :=
| Peek (win_id : string)
| Activate (win_id : string).

(** The attributes of [WindowRing] that the handlers read or write.
    [peek_timer_active] is the state of the single-shot [peek_timer];
    [closed] records that [close()] was called; [requests] is the history
    of external calls, oldest first. *)
Record WindowRing : Type := mkRing {
  groups : Groups;
  ring_size : Z;
  hub_radius : Z;
  spoke_length : Z;
  _anim_progress : R;
  hover_win_id : option string;
  selected_index : Z;
  node_positions : list Node;
  flat_windows : list Window;
  peek_timer_active : bool;
  pending_peek_id : option string;
  closed : bool;
  requests : list Request
}.

Definition with_anim_progress (v : R) (self : WindowRing) : WindowRing :=
  mkRing (groups self) (ring_size self) (hub_radius self) (spoke_length self)
         v (hover_win_id self) (selected_index self) (node_positions self)
         (flat_windows self) (peek_timer_active self) (pending_peek_id self)
         (closed self) (requests self).

Definition with_hover (h : option string) (idx : Z) (self : WindowRing)
  : WindowRing :=
  mkRing (groups self) (ring_size self) (hub_radius self) (spoke_length self)
         (_anim_progress self) h idx (node_positions self)
         (flat_windows self) (peek_timer_active self) (pending_peek_id self)
         (closed self) (requests self).

Definition with_layout (ns : list Node) (fl : list Window) (self : WindowRing)
  : WindowRing :=
  mkRing (groups self) (ring_size self) (hub_radius self) (spoke_length self)
         (_anim_progress self) (hover_win_id self) (selected_index self) ns
         fl (peek_timer_active self) (pending_peek_id self)
         (closed self) (requests self).

Definition with_timer (b : bool) (self : WindowRing) : WindowRing :=
  mkRing (groups self) (ring_size self) (hub_radius self) (spoke_length self)
         (_anim_progress self) (hover_win_id self) (selected_index self)
         (node_positions self) (flat_windows self) b (pending_peek_id self)
         (closed self) (requests self).

Definition with_pending (p : option string) (self : WindowRing) : WindowRing :=
  mkRing (groups self) (ring_size self) (hub_radius self) (spoke_length self)
         (_anim_progress self) (hover_win_id self) (selected_index self)
         (node_positions self) (flat_windows self) (peek_timer_active self) p
         (closed self) (requests self).

(** [self.close()]. *)
Definition close (self : WindowRing) : WindowRing :=
  mkRing (groups self) (ring_size self) (hub_radius self) (spoke_length self)
         (_anim_progress self) (hover_win_id self) (selected_index self)
         (node_positions self) (flat_windows self) (peek_timer_active self)
         (pending_peek_id self) true (requests self).

Definition issue (r : Request) (self : WindowRing) : WindowRing :=
  mkRing (groups self) (ring_size self) (hub_radius self) (spoke_length self)
         (_anim_progress self) (hover_win_id self) (selected_index self)
         (node_positions self) (flat_windows self) (peek_timer_active self)
         (pending_peek_id self) (closed self) (requests self ++ [r]).

(** [WindowRing.__init__]: the state after construction.  The screen
    geometry only decides where the widget is moved to and is left out. *)
Definition WindowRing_init (windows : list Window) : WindowRing :=
  {| groups := group_windows windows;
     ring_size := RING_SIZE;
     hub_radius := HUB_RADIUS;
     spoke_length := SPOKE_LENGTH;
     _anim_progress := 0%R;
     hover_win_id := None;
     selected_index := (-1)%Z;
     node_positions := [];
     flat_windows := [];
     peek_timer_active := false;
     pending_peek_id := None;
     closed := false;
     requests := [] |}.

(** The setter of the [anim_progress] property. *)
Definition set_anim_progress (self : WindowRing) (val : R) : WindowRing :=
  with_anim_progress (Rmax 0 (Rmin 1 val)) self.

(** ** [WindowRing.paintEvent]: the radial layout *)

(** What one run of the painting loops has produced so far: the hub
    centres drawn, the entries appended to [node_positions] and to
    [flat_windows], and the counter [flat_idx]. *)
Record Scene : Type := mkScene {
  hubs : list QPointF;
  nodes : list Node;
  flat : list Window;
  flat_idx : Z
}.

Definition empty_scene : Scene := mkScene [] [] [] 0%Z.

(** [self.hover_win_id == win['id']]. *)
Definition id_is (h : option string) (win_id : string) : bool :=
  match h with
  | Some x => String.eqb x win_id
  | None => false
  end.

Section Paint.
Variable self : WindowRing.
Variables cx cy prog : R.
Local Open Scope R_scope.

(** The body of the loop over the windows of one application. *)
Definition paint_win (angle hub_x hub_y : R) (num_wins j : nat)
           (win : Window) (sc : Scene) : Scene :=
  let spoke_off :=
    if (1 <? num_wins)%nat
    then (INR j - INR (num_wins - 1) / 2) * (PI / 11)
    else 0 in
  let total_angle := angle + spoke_off in
  let win_x := hub_x + IZR (spoke_length self) * prog * cos total_angle in
  let win_y := hub_y + IZR (spoke_length self) * prog * sin total_angle in
  let is_hovered := id_is (hover_win_id self) (id win) in
  let is_selected := Z.eqb (selected_index self) (flat_idx sc) in
  let radius := IZR NODE_RADIUS * prog in
  let radius := if is_hovered || is_selected then radius * 1.6 else radius in
  mkScene (hubs sc)
          (nodes sc ++ [((win_x, win_y), radius, win)])
          (flat sc ++ [win])
          (flat_idx sc + 1)%Z.

(** [for j, win in enumerate(wins)], from counter [j] on. *)
Fixpoint paint_wins (angle hub_x hub_y : R) (num_wins j : nat)
         (wins : list Window) (sc : Scene) : Scene :=
  match wins with
  | [] => sc
  | win :: rest =>
      paint_wins angle hub_x hub_y num_wins (S j) rest
                 (paint_win angle hub_x hub_y num_wins j win sc)
  end.

(** The body of the loop over the applications. *)
Definition paint_app (num_apps i : nat) (app_name : string) (sc : Scene)
  : Scene :=
  let angle := 2 * PI * INR i / INR num_apps - PI / 2 in
  let hub_dist := IZR (hub_radius self) * prog in
  let hub_x := cx + hub_dist * cos angle in
  let hub_y := cy + hub_dist * sin angle in
  let wins := groups_get app_name (groups self) in
  let num_wins := length wins in
  paint_wins angle hub_x hub_y num_wins 0 wins
             (mkScene (hubs sc ++ [(hub_x, hub_y)]) (nodes sc) (flat sc)
                      (flat_idx sc)).

(** [for i, app_name in enumerate(app_names)], from counter [i] on. *)
Fixpoint paint_apps (num_apps i : nat) (app_names : list string)
         (sc : Scene) : Scene :=
  match app_names with
  | [] => sc
  | app_name :: rest =>
      paint_apps num_apps (S i) rest (paint_app num_apps i app_name sc)
  end.
End Paint.

(** The layout part of [paintEvent].  The widget has the fixed size
    [ring_size] x [ring_size], so [width()] and [height()] are [ring_size]. *)
Definition paint_scene (self : WindowRing) : Scene :=
  let cx := (IZR (ring_size self) / 2)%R in
  let cy := (IZR (ring_size self) / 2)%R in
  let prog := _anim_progress self in
  let app_names := sorted (groups_keys (groups self)) in
  let num_apps := length app_names in
  if (num_apps =? 0)%nat then empty_scene
  else paint_apps self cx cy prog num_apps 0 app_names empty_scene.

Definition paintEvent (self : WindowRing) : WindowRing :=
  let sc := paint_scene self in
  with_layout (nodes sc) (flat sc) self.

(** ** Pointer, keyboard and timer handlers *)

(** Python truth of an optional id: [None] and the empty string are false. *)
Definition truthy (h : option string) : option string :=
  match h with
  | Some s => if String.eqb s "" then None else Some s
  | None => None
  end.

(** [a != b] on optional ids. *)
Definition id_neq (a b : option string) : bool :=
  match a, b with
  | Some x, Some y => negb (String.eqb x y)
  | None, None => false
  | _, _ => true
  end.

(** The scan of [mouseMoveEvent] over [enumerate(self.node_positions)],
    from counter [idx] on: the pair [(new_hover_id, new_selected)]. *)
Fixpoint hit_scan (px py : R) (idx : Z) (ns : list Node)
  : option string * Z :=
  match ns with
  | [] => (None, (-1)%Z)
  | (center, radius, win) :: rest =>
      let dx := (px - fst center)%R in
      let dy := (py - snd center)%R in
      let dist := sqrt (dx * dx + dy * dy) in
      if Rlt_dec dist (radius + 20)
      then (Some (id win), idx)
      else hit_scan px py (idx + 1)%Z rest
  end.

(** [mouseMoveEvent] at position [(px, py)].  [self.update()] only asks
    for a later repaint. *)
Definition mouseMoveEvent (self : WindowRing) (px py : R) : WindowRing :=
  let '(new_hover_id, new_selected) :=
    hit_scan px py 0%Z (node_positions self) in
  if id_neq new_hover_id (hover_win_id self) then
    let self1 := with_hover new_hover_id new_selected self in
    (* Delayed peek *)
    let self2 := with_timer false self1 in
    match truthy (hover_win_id self2) with
    | Some _ =>
        if PEEK_ENABLED
        then with_timer true (with_pending (hover_win_id self2) self2)
        else self2
    | None => self2
    end
  else self.

(** How the external [wmctrl] process behaves on one call: it exits with
    a return code, it cannot be run (an [OSError]), or it never exits. *)
Inductive outcome : Type :=
| Exits (returncode : Z)
| Fails
| Hangs.

(** What [subprocess.run] does in the calling thread.  Without [check] a
    non-zero return code is no error; with a [timeout] a hanging process
    is killed and [TimeoutExpired] is raised; without one the call never
    returns. *)
Inductive call_result : Type :=
| Completed
| Exception
| NeverReturns.

Definition subprocess_run (has_timeout : bool) (o : outcome) : call_result :=
  match o with
  | Exits _ => Completed
  | Fails => Exception
  | Hangs => if has_timeout then Exception else NeverReturns
  end.

(** How a handler ends: it returns, an exception leaves it, or it never
    returns.  Each carries the state reached. *)
Inductive result : Type :=
| Returned (self : WindowRing)
| Propagated (self : WindowRing)
| Blocked (self : WindowRing).

Definition state_of (r : result) : WindowRing :=
  match r with
  | Returned s | Propagated s | Blocked s => s
  end.

(** [_do_peek]: the call sits in [try: ... except: pass] and has a timeout. *)
Definition _do_peek (self : WindowRing) (o : outcome) : result :=
  match truthy (pending_peek_id self) with
  | Some pid =>
      let self1 := issue (Peek pid) self in
      match subprocess_run true o with
      | Completed => Returned self1      (* raise_(); activateWindow() *)
      | Exception => Returned self1      (* except: pass *)
      | NeverReturns => Blocked self1
      end
  | None => Returned self
  end.

Inductive MouseButton : Type := LeftButton | RightButton | MiddleButton.

Definition MouseButton_eqb (a b : MouseButton) : bool :=
  match a, b with
  | LeftButton, LeftButton | RightButton, RightButton
  | MiddleButton, MiddleButton => true
  | _, _ => false
  end.

(** The unguarded [subprocess.run(["wmctrl", "-i", "-a", id])] followed by
    [self.close()], as [mousePressEvent] and the confirm keys have it. *)
Definition activate_then_close (self : WindowRing) (wid : string)
           (o : outcome) : result :=
  let self1 := issue (Activate wid) self in
  match subprocess_run false o with
  | Completed => Returned (close self1)
  | Exception => Propagated self1
  | NeverReturns => Blocked self1
  end.

Definition mousePressEvent (self : WindowRing) (button : MouseButton)
           (o : outcome) : result :=
  if MouseButton_eqb button LeftButton then
    match truthy (hover_win_id self) with
    | Some wid => activate_then_close self wid o
    | None => Returned (close self)
    end
  else Returned self.

Inductive Key : Type :=
| Key_Escape | Key_Tab | Key_Right | Key_Down
| Key_Backtab | Key_Left | Key_Up
| Key_Return | Key_Space
| Key_Other.

Definition Key_in (k : Key) (ks : list Key) : bool :=
  existsb (fun k' =>
    match k, k' with
    | Key_Escape, Key_Escape | Key_Tab, Key_Tab | Key_Right, Key_Right
    | Key_Down, Key_Down | Key_Backtab, Key_Backtab | Key_Left, Key_Left
    | Key_Up, Key_Up | Key_Return, Key_Return | Key_Space, Key_Space
    | Key_Other, Key_Other => true
    | _, _ => false
    end) ks.

(** [(Key_Tab, Key_Right, Key_Down)] and [(Key_Backtab, Key_Left, Key_Up)]. *)
Definition forward_keys : list Key := [Key_Tab; Key_Right; Key_Down].
Definition backward_keys : list Key := [Key_Backtab; Key_Left; Key_Up].

(** [lst[i]] for a Python list: negative indices count from the end, an
    index out of range raises [IndexError] ([None] here). *)
Definition py_getitem {A : Type} (lst : list A) (i : Z) : option A :=
  let n := Z.of_nat (length lst) in
  if (0 <=? i)%Z then nth_error lst (Z.to_nat i)
  else if (0 <=? n + i)%Z then nth_error lst (Z.to_nat (n + i))
  else None.

(** The two navigation branches of [keyPressEvent]: move the selection by
    [delta] modulo the number of entries and hover the entry reached. *)
Definition navigate (self : WindowRing) (delta : Z) : result :=
  match flat_windows self with
  | [] => Returned self
  | _ :: _ =>
      let idx := ((selected_index self + delta)
                    mod Z.of_nat (length (flat_windows self)))%Z in
      let self1 := with_hover (hover_win_id self) idx self in
      match py_getitem (flat_windows self1) (selected_index self1) with
      | Some win => Returned (with_hover (Some (id win)) idx self1)
      | None => Propagated self1
      end
  end.

Definition keyPressEvent (self : WindowRing) (key : Key) (o : outcome)
  : result :=
  if Key_in key [Key_Escape] then Returned (close self)
  else if KEYBOARD_NAV && Key_in key forward_keys then
    (* Next window *)
    navigate self 1
  else if KEYBOARD_NAV && Key_in key backward_keys then
    (* Previous window *)
    navigate self (-1)
  else if Key_in key [Key_Return; Key_Space] then
    match truthy (hover_win_id self) with
    | Some wid => activate_then_close self wid o
    | None => Returned self
    end
  else Returned self.

(** Expiry of the single-shot [peek_timer]: it fires only while active,
    becomes inactive, and runs the connected slot [_do_peek]. *)
Definition peek_timeout (self : WindowRing) (o : outcome) : result :=
  if peek_timer_active self then _do_peek (with_timer false self) o
  else Returned self.

(** ** The ring as an event-driven machine *)

(** Events of the single UI thread.  Handlers that may call [wmctrl] come
    with the behaviour of the external process on that call. *)
Inductive event : Type :=
| EvPaint
| EvAnim (val : R)
| EvMouseMove (px py : R)
| EvMousePress (button : MouseButton) (o : outcome)
| EvKeyPress (key : Key) (o : outcome)
| EvPeekTimeout (o : outcome).

Definition handle (self : WindowRing) (e : event) : result :=
  match e with
  | EvPaint => Returned (paintEvent self)
  | EvAnim val => Returned (set_anim_progress self val)
  | EvMouseMove px py => Returned (mouseMoveEvent self px py)
  | EvMousePress button o => mousePressEvent self button o
  | EvKeyPress key o => keyPressEvent self key o
  | EvPeekTimeout o => peek_timeout self o
  end.

(** The event loop on a list of events.  An exception that leaves a
    handler is reported by the binding and the loop goes on; a handler
    that never returns stops the loop. *)
Fixpoint run (self : WindowRing) (es : list event) : result :=
  match es with
  | [] => Returned self
  | e :: rest =>
      match handle self e with
      | Returned s => run s rest
      | Propagated s => run s rest
      | Blocked s => Blocked s
      end
  end.

(** ** The layout in closed form

    The lists the painting loops build, written by recursion on the
    windows and on the application names; the lemmas below show the loops
    compute exactly these. *)

Section ClosedForm.
Variable self : WindowRing.
Variables cx cy prog : R.
Local Open Scope R_scope.

(** The entry the loop body appends for window [win] at position [j] of
    its group, when the flat counter stands at [fidx]. *)
Definition win_node (angle hub_x hub_y : R) (num_wins j : nat) (fidx : Z)
           (win : Window) : Node :=
  nth 0 (nodes (paint_win self prog angle hub_x hub_y num_wins j win
                          (mkScene [] [] [] fidx)))
      ((0, 0), 0, win).

Fixpoint win_nodes (angle hub_x hub_y : R) (num_wins j : nat) (fidx : Z)
         (wins : list Window) : list Node :=
  match wins with
  | [] => []
  | win :: rest =>
      win_node angle hub_x hub_y num_wins j fidx win
      :: win_nodes angle hub_x hub_y num_wins (S j) (fidx + 1)%Z rest
  end.

(** The hub centre [(hub_x, hub_y)] of application [i] of [num_apps]. *)
Definition hub_centre (num_apps i : nat) : QPointF :=
  let angle := 2 * PI * INR i / INR num_apps - PI / 2 in
  let hub_dist := IZR (hub_radius self) * prog in
  (cx + hub_dist * cos angle, cy + hub_dist * sin angle).

Definition app_nodes (num_apps i : nat) (fidx : Z) (app_name : string)
  : list Node :=
  let angle := 2 * PI * INR i / INR num_apps - PI / 2 in
  let wins := groups_get app_name (groups self) in
  win_nodes angle (fst (hub_centre num_apps i)) (snd (hub_centre num_apps i))
            (length wins) 0 fidx wins.

Fixpoint apps_nodes (num_apps i : nat) (fidx : Z) (app_names : list string)
  : list Node :=
  match app_names with
  | [] => []
  | app_name :: rest =>
      app_nodes num_apps i fidx app_name
      ++ apps_nodes num_apps (S i)
           (fidx + Z.of_nat (length (groups_get app_name (groups self))))%Z
           rest
  end.
End ClosedForm.

(** The windows of the groups in the order of [app_names]. *)
Definition windows_of (self : WindowRing) (app_names : list string)
  : list Window :=
  concat (map (fun k => groups_get k (groups self)) app_names).


(** ** The layout formulas, as the specification words them *)

Section Geometry.
Local Open Scope R_scope.

(** Angle of hub [i] of [n]. *)
Definition hub_angle (n i : nat) : R := 2 * PI * INR i / INR n - PI / 2.

(** Spoke-angle offset of window [j] of [m]. *)
Definition spoke_offset (m j : nat) : R :=
  if (1 <? m)%nat then (INR j - (INR m - 1) / 2) * (PI / 11) else 0.

(** [origin + progress * length * (cos, sin)(angle)]. *)
Definition polar_from (origin : QPointF) (progress len angle : R)
  : QPointF :=
  (fst origin + progress * len * cos angle,
   snd origin + progress * len * sin angle).

(** ** The hit test, as the handlers have it *)

(** The radius stored with a node: the base radius, enlarged when the
    node is hovered or selected at painting time. *)
Definition stored_radius (self : WindowRing) (fidx : Z) (win : Window) : R :=
  if id_is (hover_win_id self) (id win) || Z.eqb (selected_index self) fidx
  then IZR NODE_RADIUS * _anim_progress self * 1.6
  else IZR NODE_RADIUS * _anim_progress self.

(** Euclidean distance from [(px, py)] to [c]. *)
Definition distance (px py : R) (c : QPointF) : R :=
  sqrt ((px - fst c) * (px - fst c) + (py - snd c) * (py - snd c)).

(** The node [nd] is hit from [(px, py)]. *)
Definition is_hit (px py : R) (nd : Node) : Prop :=
  distance px py (fst (fst nd)) < snd (fst nd) + 20.
End Geometry.

(** ** Scenarios *)

Definition win1 : Window := mkWindow "1" "firefox" "A".
Definition win2 : Window := mkWindow "2" "Brave-browser" "B".
Definition win3 : Window := mkWindow "3" "firefox" "C".

(** The snapshot of the specification's scenario. *)
Definition scenario : list Window := [win1; win2; win3].

(** ** The progress setter on IEEE-754 values

    The real-number model has no infinities and no NaN.  This is the
    expression [max(0.0, min(1.0, val))] of the setter on binary
    floating-point values, with the comparisons Python's [min] and [max]
    make. *)
Module Ieee.
(** [0.0] *)
Definition zero : spec_float := S754_zero false.
(** [1.0], with the 53-bit mantissa of binary64. *)
Definition one : spec_float := S754_finite false 4503599627370496 (-52).

(** [min(a, b)]: [b] replaces [a] when [b < a]. *)
Definition py_min (a b : spec_float) : spec_float :=
  if SFltb b a then b else a.

(** [max(a, b)]: [b] replaces [a] when [b > a]. *)
Definition py_max (a b : spec_float) : spec_float :=
  if SFltb a b then b else a.

Definition clamp (val : spec_float) : spec_float :=
  py_max zero (py_min one val).
End Ieee.

(** A ring that has painted the single window [win1]. *)
Definition ring_one : WindowRing := paintEvent (WindowRing_init [win1]).


Definition winA : Window := mkWindow "0x01" "firefox" "Docs".
Definition winB : Window := mkWindow "0x02" "xterm" "shell".

(** A ring on two windows of two applications whose entrance animation
    has finished and which has been painted: [winA] sits at (400, 140)
    and [winB] at (400, 660). *)
Definition ring_two : WindowRing :=
  paintEvent (set_anim_progress (WindowRing_init [winA; winB]) 1).

(** The pointer has moved onto [winA]. *)
Definition ring_hovering : WindowRing := mouseMoveEvent ring_two 400 140.

(** ** Placement of the ring on the screen: [WindowRing.__init__] *)

(** [QPoint]: integer pixel coordinates. *)
Record QPoint : Type := mkPoint { x : Z; y : Z }.

(** [QRect], through the accessors the code reads. *)
Record QRect : Type := mkRect { left : Z; top : Z; right : Z; bottom : Z }.

(** The top-left corner the constructor moves the ring to:
    [global_center] minus half the ring, clamped into the available
    geometry with a padding of 15 pixels. *)
Definition ring_origin (ring_size : Z) (global_center : QPoint)
           (available_geo : QRect) : QPoint :=
  let target_x := (x global_center - ring_size / 2)%Z in
  let target_y := (y global_center - ring_size / 2)%Z in
  (* Smart clamping with edge detection *)
  let padding := 15%Z in
  mkPoint
    (Z.max (left available_geo + padding)
           (Z.min target_x (right available_geo - ring_size - padding)))
    (Z.max (top available_geo + padding)
           (Z.min target_y (bottom available_geo - ring_size - padding))).

(** ** The decision the normaliser takes, needle by needle *)

Definition normalize_decision (app_name : string) : string :=
  let l := lower app_name in
  if contains "brave" l then "Brave"
  else if contains "firefox" l then "Firefox"
  else if contains "chrome" l then "Chrome"
  else if contains "code" l || contains "vscodium" l then "Code"
  else if contains "terminal" l || contains "konsole" l then "Terminal"
  else app_name.

(** ** What holds of a ring along its life *)

(** The window id a request passes to [wmctrl]. *)
Definition request_id (r : Request) : string :=
  match r with
  | Peek win_id | Activate win_id => win_id
  end.

(** The ids of the snapshot the ring was built from. *)
Definition snapshot_id (windows : list Window) (win_id : string) : Prop :=
  exists w, In w windows /\ id w = win_id.

(** The disc of a node, enlarged or not, lies in the part of the widget
    the layout can reach: the centre is at most 190 + 70 pixels from the
    centre (400, 400) on each axis and the radius is at most 16 * 1.6. *)
Definition node_inside (nd : Node) : Prop :=
  (0 <= snd (fst nd) <= 25.6
   /\ 140 <= fst (fst (fst nd)) <= 660
   /\ 140 <= snd (fst (fst nd)) <= 660)%R.

(** Hover and selection designate the same entry of [flat_windows], or
    neither designates any. *)
Definition hover_agrees (self : WindowRing) : Prop :=
  match hover_win_id self with
  | None => selected_index self = (-1)%Z
  | Some h =>
      (0 <= selected_index self)%Z
      /\ exists w,
          nth_error (flat_windows self) (Z.to_nat (selected_index self))
          = Some w
          /\ id w = h
  end.

Record ring_invariant (windows : list Window) (self : WindowRing) : Prop := {
  inv_groups : groups self = group_windows windows;
  inv_ring_size : ring_size self = RING_SIZE;
  inv_hub_radius : hub_radius self = HUB_RADIUS;
  inv_spoke_length : spoke_length self = SPOKE_LENGTH;
  inv_progress : (0 <= _anim_progress self <= 1)%R;
  inv_nodes : map snd (node_positions self) = flat_windows self;
  inv_inside : Forall node_inside (node_positions self);
  inv_flat :
    flat_windows self = []
    \/ flat_windows self
       = windows_of self (sorted (groups_keys (groups self)));
  inv_hover : hover_agrees self;
  inv_pending :
    match pending_peek_id self with
    | None => True
    | Some p => snapshot_id windows p
    end;
  inv_requests :
    Forall (fun r => snapshot_id windows (request_id r)) (requests self)
}.

(** A key that moves the selection. *)
Definition is_navigation (e : event) : bool :=
  match e with
  | EvKeyPress key _ => Key_in key forward_keys || Key_in key backward_keys
  | _ => false
  end.



(** ** The floating button: [FloatingButton] *)

Definition SMART_POSITION : bool := true.
Definition SNAP_TO_EDGES : bool := true.
Definition SNAP_THRESHOLD : Z := 25.

Module Button.

(** The attributes of [FloatingButton] its handlers read or write.
    [pos] is the top-left corner of the frameless window, which is both
    [pos()] and [frameGeometry().topLeft()]; [saved_position] is the
    entry "button_position" of the settings. *)
Record FloatingButton : Type := mkButton {
  btn_size : Z;
  pos : QPoint;
  is_dragging : bool;
  click_pos : QPoint;
  drag_start_pos : QPoint;
  pulse : R;
  is_hovering : bool;
  saved_position : option QPoint
}.

(** [QPoint] addition and subtraction. *)
Definition QPoint_add (a b : QPoint) : QPoint :=
  mkPoint (x a + x b) (y a + y b).

Definition QPoint_sub (a b : QPoint) : QPoint :=
  mkPoint (x a - x b) (y a - y b).

(** [QPoint.manhattanLength]. *)
Definition manhattanLength (p : QPoint) : Z := Z.abs (x p) + Z.abs (y p).

(** [update_animation]. *)
Definition update_animation (self : FloatingButton) : FloatingButton :=
  mkButton (btn_size self) (pos self) (is_dragging self) (click_pos self)
           (drag_start_pos self) (pulse self + 0.04)%R (is_hovering self)
           (saved_position self).


(** [mousePressEvent] with the button pressed and the global position of
    the pointer. *)
Definition mousePressEvent (self : FloatingButton) (button : MouseButton)
           (global_pos : QPoint) : FloatingButton :=
  if MouseButton_eqb button LeftButton then
    mkButton (btn_size self) (pos self) true global_pos (pos self)
             (pulse self) (is_hovering self) (saved_position self)
  else self.

(** Snapping along one axis: [v] is the coordinate of the new position,
    [size] the extent of the button, [lo] and [hi] the near and far edge
    of the available geometry. *)
Definition snap_axis (v size lo hi : Z) : Z :=
  let threshold := SNAP_THRESHOLD in
  if (Z.abs (v - lo) <? threshold)%Z then (lo + 5)%Z
  else if (Z.abs (v + size - hi) <? threshold)%Z then (hi - size - 5)%Z
  else v.

(** The position [mouseMoveEvent] moves the button to while dragging.
    [screen] is the available geometry of the screen under the cursor,
    [None] when there is no such screen. *)
Definition drag_position (self : FloatingButton) (global_pos : QPoint)
           (screen : option QRect) : QPoint :=
  let delta := QPoint_sub global_pos (click_pos self) in
  let new_pos := QPoint_add (drag_start_pos self) delta in
  (* Edge snapping *)
  if SNAP_TO_EDGES then
    match screen with
    | Some geo =>
        mkPoint (snap_axis (x new_pos) (btn_size self) (left geo) (right geo))
                (snap_axis (y new_pos) (btn_size self) (top geo) (bottom geo))
    | None => new_pos
    end
  else new_pos.

Definition mouseMoveEvent (self : FloatingButton) (global_pos : QPoint)
           (screen : option QRect) : FloatingButton :=
  if is_dragging self then
    mkButton (btn_size self) (drag_position self global_pos screen)
             (is_dragging self) (click_pos self) (drag_start_pos self)
             (pulse self) (is_hovering self) (saved_position self)
  else self.

(** [mouseReleaseEvent]: the new state, and whether [show_ring] is
    called. *)
Definition mouseReleaseEvent (self : FloatingButton) (global_pos : QPoint)
  : FloatingButton * bool :=
  if is_dragging self then
    (* Save position *)
    let saved :=
      if SMART_POSITION then Some (pos self) else saved_position self in
    let self1 :=
      mkButton (btn_size self) (pos self) false (click_pos self)
               (drag_start_pos self) (pulse self) (is_hovering self) saved in
    (* Click vs drag detection *)
    (self1,
     (manhattanLength (QPoint_sub global_pos (click_pos self)) <? 10)%Z)
  else (self, false).

(** A run of move events, each with the screen under the cursor. *)
Definition drag (self : FloatingButton) (moves : list (QPoint * option QRect))
  : FloatingButton :=
  fold_left (fun s m => mouseMoveEvent s (fst m) (snd m)) moves self.

End Button.

(** ** More of Python's string methods *)

(** [c.isspace()] on the ASCII range: the characters 9 to 13, 28 to 31
    and the blank. *)
Definition is_space (c : ascii) : bool :=
  let n := nat_of_ascii c in
  ((9 <=? n)%nat && (n <=? 13)%nat)
  || ((28 <=? n)%nat && (n <=? 31)%nat)
  || (n =? 32)%nat.

(** [s.lstrip()]. *)
Fixpoint lstrip (s : string) : string :=
  match s with
  | EmptyString => EmptyString
  | String c s' => if is_space c then lstrip s' else s
  end.

(** [s.rstrip()]. *)
Fixpoint rstrip (s : string) : string :=
  match s with
  | EmptyString => EmptyString
  | String c s' =>
      match rstrip s' with
      | EmptyString => if is_space c then EmptyString else String c EmptyString
      | r => String c r
      end
  end.

(** [s.strip()]. *)
Definition strip (s : string) : string := rstrip (lstrip s).

(** [s.split(sep)] for a separator of one character. *)
Fixpoint split_on (sep : ascii) (s : string) : list string :=
  match s with
  | EmptyString => [EmptyString]
  | String c s' =>
      if Ascii.eqb c sep then EmptyString :: split_on sep s'
      else match split_on sep s' with
           | h :: t => String c h :: t
           | [] => [String c EmptyString]
           end
  end.

(** The longest prefix without whitespace, and what follows it. *)
Fixpoint take_token (s : string) : string * string :=
  match s with
  | EmptyString => (EmptyString, EmptyString)
  | String c s' =>
      if is_space c then (EmptyString, s)
      else let '(tok, rest) := take_token s' in (String c tok, rest)
  end.

(** [s.split(None, maxsplit)]: at most [maxsplit] fields are cut off at
    runs of whitespace; what is left after them, without its leading
    whitespace but with its trailing one, is the last field. *)
Fixpoint split_ws (maxsplit : nat) (s : string) : list string :=
  match lstrip s with
  | EmptyString => []
  | String c s' =>
      match maxsplit with
      | O => [String c s']
      | S n =>
          let '(tok, rest) := take_token (String c s') in
          tok :: split_ws n rest
      end
  end.

(** [s.split()]: no limit on the number of fields. *)
Definition split_all (s : string) : list string :=
  split_ws (String.length s) s.

(** [s.split('.')[0]]. *)
Fixpoint before_dot (s : string) : string :=
  match s with
  | EmptyString => EmptyString
  | String c s' =>
      if Ascii.eqb c "."%char then EmptyString else String c (before_dot s')
  end.

(** [c.upper()] on one byte. *)
Definition upper_ascii (c : ascii) : ascii :=
  let n := nat_of_ascii c in
  if (97 <=? n)%nat && (n <=? 122)%nat then ascii_of_nat (n - 32) else c.

(** [s.capitalize()]. *)
Definition capitalize (s : string) : string :=
  match s with
  | EmptyString => EmptyString
  | String c s' => String (upper_ascii c) (lower s')
  end.

(** [d.get(k, default)] on a dict written as a list of pairs. *)
Fixpoint dict_get (d : list (string * string)) (k default : string) : string :=
  match d with
  | [] => default
  | (k', v) :: rest => if String.eqb k' k then v else dict_get rest k default
  end.

(** ** [FloatingButton.get_windows] and [show_ring] *)

Definition ignore_classes : list string :=
  ["pcmanfm-desktop"; "xfdesktop"; "lxqt-panel";
   "desktop_window"; "plank"; "cairo-dock"; "conky"].

Definition ignore_titles : list string :=
  ["float"; "floating button"; "desktop"].

Definition app_map : list (string * string) :=
  [("brave-browser", "Brave"); ("code", "VSCode");
   ("qterminal", "Terminal"); ("pcmanfm-qt", "Files")].

(** The body of the loop over the lines of [wmctrl -lx]: the window the
    line yields, or [None] when the line is skipped. *)
Definition parse_line (line : string) : option Window :=
  if String.eqb (strip line) "" then None
  else
    match split_ws 4 line with
    | win_id :: desktop :: part2 :: _ :: title_ :: _ =>
        let win_class := lower (before_dot part2) in
        (* Skip desktop windows *)
        if String.eqb desktop "-1" then None
        (* Filter unwanted *)
        else if any_in ignore_classes win_class then None
        else if any_in ignore_titles (lower title_) then None
        else if String.eqb (strip title_) "" then None
        else
          (* Clean app name *)
          let app_name := capitalize win_class in
          let app_name := dict_get app_map win_class app_name in
          Some (mkWindow win_id app_name (strip title_))
    | _ => None
    end.

(** [for line in stdout.strip().split('\n')]. *)
Fixpoint parse_lines (lines : list string) : list Window :=
  match lines with
  | [] => []
  | line :: rest =>
      match parse_line line with
      | Some w => w :: parse_lines rest
      | None => parse_lines rest
      end
  end.

(** [get_windows].  [run_result] is the standard output of
    [wmctrl -lx], or [None] when [subprocess.run] raises (the program is
    missing or exceeds its timeout of 2 seconds), which the handler
    answers with the empty list. *)
Definition get_windows (run_result : option string) : list Window :=
  match run_result with
  | Some stdout => parse_lines (split_on "010"%char (strip stdout))
  | None => []
  end.

(** [show_ring]: the ring that is opened, if any. *)
Definition show_ring (run_result : option string) : option WindowRing :=
  match get_windows run_result with
  | [] => None
  | wins => Some (WindowRing_init wins)
  end.

(** Every character of [s] is whitespace. *)
Fixpoint all_space (s : string) : bool :=
  match s with
  | EmptyString => true
  | String c s' => is_space c && all_space s'
  end.

(** No character of [s] is whitespace. *)
Fixpoint no_space (s : string) : bool :=
  match s with
  | EmptyString => true
  | String c s' => negb (is_space c) && no_space s'
  end.

(** ** [WindowRing.get_app_icon] *)

Definition icon_map : list (string * string) :=
  [("brave", "brave-browser"); ("firefox", "firefox");
   ("chrome", "google-chrome"); ("code", "vscode");
   ("terminal", "utilities-terminal"); ("qterminal", "utilities-terminal");
   ("pcmanfm", "system-file-manager"); ("dolphin", "system-file-manager");
   ("nautilus", "system-file-manager")].

(** [s.replace(' ', '-')]. *)
Fixpoint replace_blank_dash (s : string) : string :=
  match s with
  | EmptyString => EmptyString
  | String c s' =>
      String (if Ascii.eqb c " "%char then "-"%char else c)
             (replace_blank_dash s')
  end.

(** The list [icon_names]; [None] when building it raises [IndexError],
    which [split()[0]] does on a name without any non-blank character. *)
Definition icon_names (app_name : string) : option (list string) :=
  let l := lower app_name in
  let last :=
    if contains " " app_name
    then match split_all l with
         | first :: _ => Some first
         | [] => None
         end
    else Some l in
  match last with
  | Some name => Some [dict_get icon_map l l; l; replace_blank_dash l; name]
  | None => None
  end.

Section Icons.
(** The pixmaps, and the icon theme: [fromTheme name] is the pixmap of
    the icon [QIcon.fromTheme(name)], [None] when that icon is null. *)
Variable Pixmap : Type.
Variable fromTheme : string -> option Pixmap.

(** [icon_cache]: a dict from application names to pixmaps, a null
    pixmap being [None]. *)
Definition IconCache : Type := list (string * option Pixmap).

Fixpoint cache_get (cache : IconCache) (k : string)
  : option (option Pixmap) :=
  match cache with
  | [] => None
  | (k', v) :: rest => if String.eqb k' k then Some v else cache_get rest k
  end.

(** [cache[k] = v]. *)
Fixpoint cache_set (cache : IconCache) (k : string) (v : option Pixmap)
  : IconCache :=
  match cache with
  | [] => [(k, v)]
  | (k', v') :: rest =>
      if String.eqb k' k then (k', v) :: rest
      else (k', v') :: cache_set rest k v
  end.

(** The loop over [icon_names], starting from the icon [icon]: the icon
    it ends with. *)
Fixpoint first_icon (icon : option Pixmap) (names : list string)
  : option Pixmap :=
  match names with
  | [] => icon
  | name :: rest =>
      match fromTheme name with
      | Some p => Some p
      | None => first_icon None rest
      end
  end.

(** [get_app_icon]: the pixmap returned and the cache afterwards, or
    [None] when the call raises. *)
Definition get_app_icon (cache : IconCache) (app_name : string)
  : option (option Pixmap * IconCache) :=
  match cache_get cache app_name with
  | Some pix => Some (pix, cache)
  | None =>
      match icon_names app_name with
      | None => None
      | Some names =>
          let icon := first_icon None names in
          let icon :=
            match icon with
            | None => fromTheme "application-x-executable"
            | Some p => Some p
            end in
          Some (icon, cache_set cache app_name icon)
      end
  end.
End Icons.


(** * Properties *)

(** ** The normaliser *)

(** The normaliser answers one of five canonical keys or its argument,
    whatever the case folding is. *)
Lemma normalize_with_range (to_lower : string -> string) (x : string) :
  In (normalize_with to_lower x)
     ["Brave"; "Firefox"; "Chrome"; "Code"; "Terminal"; x].
Proof.
  unfold normalize_with.
  destruct (any_in ["chrome"; "chromium"; "brave"; "firefox"; "edge"]
                   (to_lower x));
    repeat match goal with
           | |- context [if ?b then _ else _] => destruct b
           end; simpl; tauto.
Qed.

(** Idempotence needs of the case folding only that it lowers the five
    canonical keys as ASCII does; Unicode-aware [str.lower] does. *)
Lemma normalize_with_idempotent (to_lower : string -> string) :
  to_lower "Brave" = "brave" ->
  to_lower "Firefox" = "firefox" ->
  to_lower "Chrome" = "chrome" ->
  to_lower "Code" = "code" ->
  to_lower "Terminal" = "terminal" ->
  forall x : string,
    normalize_with to_lower (normalize_with to_lower x)
    = normalize_with to_lower x.
Proof.
  intros Hb Hf Hc Hd Ht x.
  destruct (normalize_with_range to_lower x)
    as [H | [H | [H | [H | [H | [H | []]]]]]]; rewrite <- H.
  - unfold normalize_with. rewrite Hb. reflexivity.
  - unfold normalize_with. rewrite Hf. reflexivity.
  - unfold normalize_with. rewrite Hc. reflexivity.
  - unfold normalize_with. rewrite Hd. reflexivity.
  - unfold normalize_with. rewrite Ht. reflexivity.
  - symmetry. exact H.
Qed.

(** C8: the normaliser is idempotent, and being a function of its
    argument alone it maps equal inputs to equal outputs. *)
Theorem normalize_idempotent_deterministic :
  (forall x : string,
      _normalize_app_name (_normalize_app_name x) = _normalize_app_name x)
  /\ (forall x y : string,
         x = y -> _normalize_app_name x = _normalize_app_name y).
Proof.
  split.
  - intro x. unfold _normalize_app_name.
    now apply normalize_with_idempotent.
  - intros x y ->. reflexivity.
Qed.

Lemma normalize_idempotent_deterministic_witness :
  _normalize_app_name (_normalize_app_name "Brave-browser")
  = _normalize_app_name "Brave-browser"
  /\ _normalize_app_name "Brave-browser" = _normalize_app_name "Brave-browser".
Proof.
  split.
  - exact (proj1 normalize_idempotent_deterministic "Brave-browser").
  - exact (proj2 normalize_idempotent_deterministic
                 "Brave-browser" "Brave-browser" eq_refl).
Defined.

(** ** The grouper *)

Section Grouper.
Implicit Types (g : Groups) (k : string) (w : Window).

Lemma groups_keys_append k w g :
  groups_keys (groups_append k w g)
  = if existsb (String.eqb k) (groups_keys g)
    then groups_keys g else groups_keys g ++ [k].
Proof.
  induction g as [| [k' ws] g IH]; simpl; [reflexivity |].
  rewrite (String.eqb_sym k k').
  destruct (String.eqb k' k); simpl; [reflexivity |].
  rewrite IH.
  destruct (existsb _ _); reflexivity.
Qed.

Lemma existsb_eqb_In k (l : list string) :
  existsb (String.eqb k) l = true <-> In k l.
Proof.
  rewrite existsb_exists. split.
  - intros [x [Hin Heq]]. apply String.eqb_eq in Heq. now subst.
  - intro Hin. exists k. split; [assumption | apply String.eqb_refl].
Qed.

Lemma groups_append_NoDup k w g :
  NoDup (groups_keys g) -> NoDup (groups_keys (groups_append k w g)).
Proof.
  intro Hnd. rewrite groups_keys_append.
  destruct (existsb (String.eqb k) (groups_keys g)) eqn:E; [assumption |].
  apply NoDup_app; [assumption | repeat constructor; simpl; tauto |].
  intros x Hx [<- | []].
  apply existsb_eqb_In in Hx. congruence.
Qed.

Lemma groups_get_append k w g k' :
  groups_get k' (groups_append k w g)
  = if String.eqb k k' then groups_get k' g ++ [w] else groups_get k' g.
Proof.
  induction g as [| [k0 ws] g IH]; simpl.
  - destruct (String.eqb k k'); reflexivity.
  - destruct (String.eqb k0 k) eqn:E0; simpl.
    + apply String.eqb_eq in E0. subst k0.
      destruct (String.eqb k k'); reflexivity.
    + rewrite IH.
      destruct (String.eqb k0 k') eqn:E1; [| reflexivity].
      apply String.eqb_eq in E1. subst k0.
      rewrite String.eqb_sym, E0. reflexivity.
Qed.

Lemma groups_get_In k ws g :
  NoDup (groups_keys g) -> In (k, ws) g -> groups_get k g = ws.
Proof.
  induction g as [| [k0 ws0] g IH]; simpl; [tauto |].
  intros Hnd [Heq | Hin].
  - inversion Heq; subst. now rewrite String.eqb_refl.
  - inversion Hnd as [| ? ? Hnotin Hnd']; subst.
    destruct (String.eqb k0 k) eqn:E; [| now apply IH].
    apply String.eqb_eq in E. subst k0.
    exfalso. apply Hnotin. change k with (fst (k, ws)).
    now apply in_map.
Qed.

Lemma groups_append_nonempty k w g :
  (forall k' ws, In (k', ws) g -> ws <> []) ->
  forall k' ws, In (k', ws) (groups_append k w g) -> ws <> [].
Proof.
  induction g as [| [k0 ws0] g IH]; simpl; intros Hne k' ws.
  - intros [Heq | []]. inversion Heq. discriminate.
  - destruct (String.eqb k0 k); simpl.
    + intros [Heq | Hin]; [| eauto].
      inversion Heq; subst. now destruct ws0.
    + intros [Heq | Hin]; [eauto |].
      apply (IH (fun k1 ws1 H => Hne k1 ws1 (or_intror H)) k' ws Hin).
Qed.

Lemma groups_append_concat k w g :
  Permutation (concat (map snd (groups_append k w g)))
              (concat (map snd g) ++ [w]).
Proof.
  induction g as [| [k0 ws0] g IH]; simpl; [reflexivity |].
  destruct (String.eqb k0 k); simpl.
  - rewrite <- !app_assoc. apply Permutation_app_head.
    apply Permutation_app_comm.
  - rewrite <- app_assoc. now apply Permutation_app_head.
Qed.

(** The buckets after the loop has consumed [windows]. *)
Lemma group_windows_snoc (windows : list Window) w :
  group_windows (windows ++ [w]) = group_step (group_windows windows) w.
Proof. unfold group_windows. now rewrite fold_left_app. Qed.

Lemma group_windows_NoDup (windows : list Window) :
  NoDup (groups_keys (group_windows windows)).
Proof.
  induction windows as [| w ws IH] using rev_ind; [constructor |].
  rewrite group_windows_snoc. now apply groups_append_NoDup.
Qed.

Lemma group_windows_get (windows : list Window) k :
  groups_get k (group_windows windows) = filter (in_group k) windows.
Proof.
  induction windows as [| w ws IH] using rev_ind; [reflexivity |].
  rewrite group_windows_snoc. unfold group_step.
  rewrite groups_get_append, filter_app, IH.
  change (filter (in_group k) [w]) with (if in_group k w then [w] else []).
  unfold in_group.
  destruct (String.eqb (_normalize_app_name (app w)) k);
    [reflexivity | now rewrite app_nil_r].
Qed.

Lemma group_windows_nonempty (windows : list Window) k ws :
  In (k, ws) (group_windows windows) -> ws <> [].
Proof.
  revert k ws.
  induction windows as [| w wl IH] using rev_ind; [intros k ws [] |].
  rewrite group_windows_snoc. now apply groups_append_nonempty.
Qed.

Lemma group_windows_concat (windows : list Window) :
  Permutation (concat (map snd (group_windows windows))) windows.
Proof.
  induction windows as [| w ws IH] using rev_ind; [reflexivity |].
  rewrite group_windows_snoc. unfold group_step.
  rewrite groups_append_concat. now apply Permutation_app_tail.
Qed.
End Grouper.

(** C7: grouping partitions the snapshot.  The keys of the groups are
    pairwise distinct; the group of a key is non-empty and is exactly the
    sub-sequence of the input whose normalised application is that key, in
    input order, so a descriptor lies in the one group of its own key; and
    the groups together hold the input as a multiset. *)
Theorem group_windows_partition (windows : list Window) :
  NoDup (groups_keys (group_windows windows))
  /\ (forall k ws, In (k, ws) (group_windows windows) ->
        ws <> [] /\ ws = filter (in_group k) windows)
  /\ (forall k ws w, In (k, ws) (group_windows windows) -> In w ws ->
        k = _normalize_app_name (app w))
  /\ Permutation (concat (map snd (group_windows windows))) windows.
Proof.
  assert (Hbucket : forall k ws, In (k, ws) (group_windows windows) ->
                      ws = filter (in_group k) windows).
  { intros k ws Hin. rewrite <- group_windows_get.
    symmetry. apply groups_get_In; [apply group_windows_NoDup | exact Hin]. }
  repeat split.
  - apply group_windows_NoDup.
  - eapply group_windows_nonempty; eassumption.
  - now apply Hbucket.
  - intros k ws w Hin Hw. rewrite (Hbucket k ws Hin) in Hw.
    apply filter_In in Hw. destruct Hw as [_ Hk].
    symmetry. now apply String.eqb_eq.
  - apply group_windows_concat.
Qed.

(** ** The painting loops compute the closed form *)

Section PaintLoops.
Variable self : WindowRing.
Variables cx cy prog : R.

Lemma paint_win_eq angle hub_x hub_y num_wins j win sc :
  paint_win self prog angle hub_x hub_y num_wins j win sc
  = mkScene (hubs sc)
            (nodes sc
             ++ [win_node self prog angle hub_x hub_y num_wins j
                          (flat_idx sc) win])
            (flat sc ++ [win])
            (flat_idx sc + 1)%Z.
Proof. reflexivity. Qed.

Lemma paint_wins_eq angle hub_x hub_y num_wins wins :
  forall j sc,
    paint_wins self prog angle hub_x hub_y num_wins j wins sc
    = mkScene (hubs sc)
              (nodes sc
               ++ win_nodes self prog angle hub_x hub_y num_wins j
                            (flat_idx sc) wins)
              (flat sc ++ wins)
              (flat_idx sc + Z.of_nat (length wins))%Z.
Proof.
  induction wins as [| win rest IH]; intros j sc.
  - simpl. rewrite !app_nil_r, Z.add_0_r. now destruct sc.
  - cbn [paint_wins win_nodes length]. rewrite IH, paint_win_eq.
    cbn [hubs nodes flat flat_idx].
    rewrite <- !app_assoc. cbn [Datatypes.app]. f_equal. lia.
Qed.

Lemma paint_app_eq num_apps i app_name sc :
  paint_app self cx cy prog num_apps i app_name sc
  = mkScene (hubs sc ++ [hub_centre self cx cy prog num_apps i])
            (nodes sc
             ++ app_nodes self cx cy prog num_apps i (flat_idx sc) app_name)
            (flat sc ++ groups_get app_name (groups self))
            (flat_idx sc
             + Z.of_nat (length (groups_get app_name (groups self))))%Z.
Proof. unfold paint_app. now rewrite paint_wins_eq. Qed.

Lemma paint_apps_eq num_apps app_names :
  forall i sc,
    paint_apps self cx cy prog num_apps i app_names sc
    = mkScene (hubs sc
               ++ map (hub_centre self cx cy prog num_apps)
                      (seq i (length app_names)))
              (nodes sc
               ++ apps_nodes self cx cy prog num_apps i (flat_idx sc)
                             app_names)
              (flat sc ++ windows_of self app_names)
              (flat_idx sc
               + Z.of_nat (length (windows_of self app_names)))%Z.
Proof.
  unfold windows_of.
  induction app_names as [| app_name rest IH]; intros i sc.
  - simpl. rewrite !app_nil_r, Z.add_0_r. now destruct sc.
  - cbn [paint_apps apps_nodes length seq map concat].
    rewrite IH, paint_app_eq. cbn [hubs nodes flat flat_idx].
    rewrite <- !app_assoc. cbn [Datatypes.app]. f_equal.
    rewrite length_app. lia.
Qed.



End PaintLoops.

(** What [paintEvent] leaves in [flat_windows] and [node_positions]. *)
Lemma paint_scene_eq (self : WindowRing) :
  let cx := (IZR (ring_size self) / 2)%R in
  let app_names := sorted (groups_keys (groups self)) in
  let n := length app_names in
  paint_scene self
  = mkScene (map (hub_centre self cx cx (_anim_progress self) n) (seq 0 n))
            (apps_nodes self cx cx (_anim_progress self) n 0 0 app_names)
            (windows_of self app_names)
            (Z.of_nat (length (windows_of self app_names))).
Proof.
  intros cx app_names n. unfold paint_scene. fold app_names. fold n.
  destruct (Nat.eqb_spec n 0) as [E | E].
  - apply length_zero_iff_nil in E. subst n. rewrite E. reflexivity.
  - fold cx. rewrite paint_apps_eq. reflexivity.
Qed.

Lemma flat_windows_paintEvent (self : WindowRing) :
  flat_windows (paintEvent self)
  = windows_of self (sorted (groups_keys (groups self))).
Proof. unfold paintEvent. cbn. now rewrite paint_scene_eq. Qed.


Lemma win_node_window self prog angle hub_x hub_y num_wins j fidx win :
  snd (win_node self prog angle hub_x hub_y num_wins j fidx win) = win.
Proof. reflexivity. Qed.

Lemma win_node_radius self angle hub_x hub_y num_wins j fidx win :
  snd (fst (win_node self (_anim_progress self) angle hub_x hub_y
                     num_wins j fidx win))
  = stored_radius self fidx win.
Proof.
  unfold win_node, paint_win, stored_radius. cbn.
  destruct (id_is _ _ || _); reflexivity.
Qed.

Lemma win_node_centre self prog angle hub_x hub_y num_wins j fidx win :
  fst (fst (win_node self prog angle hub_x hub_y num_wins j fidx win))
  = polar_from (hub_x, hub_y) prog (IZR (spoke_length self))
               (angle + spoke_offset num_wins j).
Proof.
  unfold win_node, paint_win, polar_from, spoke_offset.
  cbn [nodes Datatypes.app nth fst snd].
  destruct (Nat.ltb_spec 1 num_wins) as [Hm | Hm].
  - rewrite minus_INR by lia. change (INR 1) with 1%R.
    apply (f_equal2 (@pair R R)); ring.
  - apply (f_equal2 (@pair R R)); ring.
Qed.

Lemma hub_centre_polar self cx cy prog n i :
  hub_centre self cx cy prog n i
  = polar_from (cx, cy) prog (IZR (hub_radius self)) (hub_angle n i).
Proof.
  unfold hub_centre, polar_from, hub_angle. cbn [fst snd].
  apply (f_equal2 (@pair R R)); ring.
Qed.



Lemma group_windows_partition_witness :
  [win2] <> [] /\ [win2] = filter (in_group "Brave") scenario.
Proof.
  apply (proj1 (proj2 (group_windows_partition scenario)) "Brave" [win2]).
  right. left. reflexivity.
Defined.

(** ** The scenario of the specification *)

(** C1, as the code has it: the scenario's snapshot is grouped into
    "Firefox" with windows 1 and 3 and "Brave" with window 2; the keys
    sort to "Brave", "Firefox"; and the flattened navigation order, keys
    in sorted order and windows in snapshot order within a key, is
    2, 1, 3. *)
Theorem scenario_groups_and_order :
  group_windows scenario = [("Firefox", [win1; win3]); ("Brave", [win2])]
  /\ sorted (groups_keys (group_windows scenario)) = ["Brave"; "Firefox"]
  /\ map id (flat_windows (paintEvent (WindowRing_init scenario)))
     = ["2"; "1"; "3"].
Proof.
  split; [reflexivity | split; [reflexivity |]].
  rewrite flat_windows_paintEvent. reflexivity.
Qed.

(** C1 as stated fails: with the groups as claimed, the flattened order
    of the scenario is not 1, 3, 2. *)
Lemma scenario_order_is_not_1_3_2 :
  ~ (groups_get "Firefox" (group_windows scenario) = [win1; win3]
     /\ groups_get "Brave" (group_windows scenario) = [win2]
     /\ map id (flat_windows (paintEvent (WindowRing_init scenario)))
        = ["1"; "3"; "2"]).
Proof.
  intros [_ [_ H]]. rewrite flat_windows_paintEvent in H.
  vm_compute in H. discriminate H.
Qed.

(** ** Keyboard navigation *)

Lemma py_getitem_in_range {A : Type} (lst : list A) (i : Z) :
  (0 <= i < Z.of_nat (length lst))%Z ->
  exists x, nth_error lst (Z.to_nat i) = Some x /\ py_getitem lst i = Some x.
Proof.
  intros [Hlo Hhi]. unfold py_getitem.
  apply Z.leb_le in Hlo. rewrite Hlo.
  destruct (nth_error lst (Z.to_nat i)) as [x |] eqn:E; [now exists x |].
  apply nth_error_None in E. apply Z.leb_le in Hlo. lia.
Qed.

(** A navigation step on a non-empty flattened sequence returns, selects
    the index moved by [delta] modulo the length, and hovers its entry. *)
Lemma navigate_spec (self : WindowRing) (delta : Z) :
  flat_windows self <> [] ->
  let idx := ((selected_index self + delta)
                mod Z.of_nat (length (flat_windows self)))%Z in
  exists win,
    nth_error (flat_windows self) (Z.to_nat idx) = Some win
    /\ navigate self delta = Returned (with_hover (Some (id win)) idx self).
Proof.
  intros Hne idx. unfold navigate.
  destruct (flat_windows self) as [| w0 rest] eqn:Hflat; [congruence |].
  fold idx. cbn [flat_windows selected_index with_hover]. rewrite Hflat.
  destruct (py_getitem_in_range (w0 :: rest) idx) as [win [Hnth Hget]].
  { subst idx. apply Z.mod_pos_bound. cbn [length]. lia. }
  exists win. split; [exact Hnth |]. rewrite Hget. reflexivity.
Qed.

Lemma keyPressEvent_forward (self : WindowRing) (key : Key) (o : outcome) :
  In key forward_keys -> keyPressEvent self key o = navigate self 1.
Proof. intros [<- | [<- | [<- | []]]]; reflexivity. Qed.

Lemma keyPressEvent_backward (self : WindowRing) (key : Key) (o : outcome) :
  In key backward_keys -> keyPressEvent self key o = navigate self (-1).
Proof. intros [<- | [<- | [<- | []]]]; reflexivity. Qed.


Lemma ring_one_flat : flat_windows ring_one = [win1].
Proof. unfold ring_one. rewrite flat_windows_paintEvent. reflexivity. Qed.


(** C10, as the code has it: from the sentinel index -1 on a flattened
    sequence of N >= 1 entries a forward key selects index 0 and a
    backward key selects index (-2) mod N, which is N-2 when N >= 2 and
    0 when N = 1; the hovered id becomes the id of the entry selected. *)
Theorem navigation_from_sentinel (self : WindowRing) (o : outcome) :
  flat_windows self <> [] ->
  selected_index self = (-1)%Z ->
  let N := Z.of_nat (length (flat_windows self)) in
  (forall key, In key forward_keys ->
     exists self' win,
       keyPressEvent self key o = Returned self'
       /\ selected_index self' = 0%Z
       /\ nth_error (flat_windows self) 0 = Some win
       /\ hover_win_id self' = Some (id win))
  /\ (forall key, In key backward_keys ->
        exists self' win,
          keyPressEvent self key o = Returned self'
          /\ selected_index self' = ((-2) mod N)%Z
          /\ ((2 <= N)%Z -> selected_index self' = (N - 2)%Z)
          /\ (N = 1%Z -> selected_index self' = 0%Z)
          /\ nth_error (flat_windows self) (Z.to_nat (selected_index self'))
             = Some win
          /\ hover_win_id self' = Some (id win)).
Proof.
  intros Hne Hsel N.
  assert (HN : (0 < N)%Z).
  { subst N. destruct (flat_windows self); [congruence | cbn [length]; lia]. }
  split; intros key Hkey.
  - rewrite (keyPressEvent_forward _ _ _ Hkey).
    destruct (navigate_spec self 1 Hne) as [win [Hnth ->]].
    fold N in Hnth |- *. rewrite Hsel in Hnth |- *.
    change (-1 + 1)%Z with 0%Z in *. rewrite Z.mod_0_l in * by lia.
    exists (with_hover (Some (id win)) 0%Z self), win. auto.
  - rewrite (keyPressEvent_backward _ _ _ Hkey).
    destruct (navigate_spec self (-1) Hne) as [win [Hnth ->]].
    fold N in Hnth |- *. rewrite Hsel in Hnth |- *.
    change (-1 + -1)%Z with (-2)%Z in *.
    exists (with_hover (Some (id win)) ((-2) mod N)%Z self), win.
    cbn [selected_index hover_win_id with_hover].
    repeat split; auto.
    + intro H2. symmetry. apply (Z.mod_unique_pos _ _ (-1)%Z); lia.
    + intros ->. reflexivity.
Qed.

Lemma navigation_from_sentinel_witness :
  exists self' win,
    keyPressEvent ring_one Key_Tab (Exits 0) = Returned self'
    /\ selected_index self' = 0%Z
    /\ nth_error (flat_windows ring_one) 0 = Some win
    /\ hover_win_id self' = Some (id win).
Proof.
  assert (Hne : flat_windows ring_one <> []).
  { rewrite ring_one_flat. discriminate. }
  apply (proj1 (navigation_from_sentinel ring_one (Exits 0) Hne eq_refl)
               Key_Tab).
  left. reflexivity.
Defined.

(** C10 as stated fails for N = 1: from the sentinel a backward key
    selects index 0, which is N-1 and not N-2. *)
Lemma backward_from_sentinel_single_window :
  let N := Z.of_nat (length (flat_windows ring_one)) in
  N = 1%Z
  /\ selected_index ring_one = (-1)%Z
  /\ selected_index (state_of (keyPressEvent ring_one Key_Backtab (Exits 0)))
     = (N - 1)%Z
  /\ selected_index (state_of (keyPressEvent ring_one Key_Backtab (Exits 0)))
     <> (N - 2)%Z.
Proof.
  cbn zeta. rewrite (keyPressEvent_backward ring_one Key_Backtab (Exits 0))
    by (left; reflexivity).
  assert (Hne : flat_windows ring_one <> []).
  { rewrite ring_one_flat. discriminate. }
  destruct (navigate_spec ring_one (-1) Hne) as [win [_ ->]].
  cbn [state_of selected_index with_hover]. rewrite ring_one_flat.
  repeat split; discriminate.
Qed.

(** ** The progress setter *)

Lemma clamp_unit_interval (v : R) : (0 <= Rmax 0 (Rmin 1 v) <= 1)%R.
Proof.
  split.
  - apply Rmax_l.
  - apply Rmax_lub; [lra | apply Rmin_l].
Qed.

Lemma navigate_progress (self : WindowRing) (delta : Z) :
  _anim_progress (state_of (navigate self delta)) = _anim_progress self.
Proof.
  unfold navigate. destruct (flat_windows self); [reflexivity |].
  destruct (py_getitem _ _); reflexivity.
Qed.

Lemma activate_then_close_progress (self : WindowRing) wid o :
  _anim_progress (state_of (activate_then_close self wid o))
  = _anim_progress self.
Proof. destruct o; reflexivity. Qed.

(** Only the setter writes the progress. *)
Lemma handle_progress (self : WindowRing) (e : event) :
  (forall val, e <> EvAnim val) ->
  _anim_progress (state_of (handle self e)) = _anim_progress self.
Proof.
  intro Hne. destruct e as [| val | px py | button o | key o | o];
    cbn [handle state_of].
  - reflexivity.
  - now destruct (Hne val).
  - unfold mouseMoveEvent.
    destruct (hit_scan px py 0 (node_positions self)) as [h k].
    destruct (id_neq h (hover_win_id self)); [| reflexivity].
    destruct (truthy _); reflexivity.
  - unfold mousePressEvent. destruct (MouseButton_eqb _ _); [| reflexivity].
    destruct (truthy _); [apply activate_then_close_progress | reflexivity].
  - unfold keyPressEvent.
    repeat match goal with
           | |- context [if ?b then _ else _] => destruct b
           end;
      try reflexivity; try apply navigate_progress.
    destruct (truthy _); [apply activate_then_close_progress | reflexivity].
  - unfold peek_timeout, _do_peek. destruct (peek_timer_active self);
      [| reflexivity].
    cbn [pending_peek_id with_timer]. destruct (truthy _); [| reflexivity].
    destruct o; reflexivity.
Qed.

Lemma handle_progress_bounds (self : WindowRing) (e : event) :
  (0 <= _anim_progress self <= 1)%R ->
  (0 <= _anim_progress (state_of (handle self e)) <= 1)%R.
Proof.
  intro H. destruct e as [| val | px py | button o | key o | o];
    try (rewrite handle_progress by discriminate; exact H).
  apply clamp_unit_interval.
Qed.

Lemma run_progress_bounds (es : list event) :
  forall self,
    (0 <= _anim_progress self <= 1)%R ->
    (0 <= _anim_progress (state_of (run self es)) <= 1)%R.
Proof.
  induction es as [| e es IH]; intros self H; [exact H |].
  cbn [run]. pose proof (handle_progress_bounds self e H) as He.
  destruct (handle self e) as [s | s | s]; cbn [state_of] in *; auto.
Qed.

Lemma SFltb_SFleb (a b : spec_float) : SFltb a b = true -> SFleb a b = true.
Proof.
  unfold SFltb, SFleb. destruct (SFcompare a b) as [[| |] |]; congruence.
Qed.

(** C9: the setter stores max(0, min(1, v)), a value in [0, 1] whatever v
    is; so the progress the layout reads stays in [0, 1] along every run
    of the ring from its construction.  On IEEE-754 values, infinities and
    NaN included, the clamped value lies between 0.0 and 1.0 as well. *)
Theorem anim_progress_clamped :
  (forall (self : WindowRing) (v : R),
      _anim_progress (set_anim_progress self v) = Rmax 0 (Rmin 1 v)
      /\ (0 <= _anim_progress (set_anim_progress self v) <= 1)%R)
  /\ (forall (windows : list Window) (es : list event),
         (0 <= _anim_progress (state_of (run (WindowRing_init windows) es))
          <= 1)%R)
  /\ (forall v : spec_float,
         SFleb Ieee.zero (Ieee.clamp v) = true
         /\ SFleb (Ieee.clamp v) Ieee.one = true).
Proof.
  repeat split.
  - apply clamp_unit_interval.
  - apply clamp_unit_interval.
  - apply run_progress_bounds. cbn. lra.
  - apply run_progress_bounds. cbn. lra.
  - unfold Ieee.clamp, Ieee.py_max, Ieee.py_min.
    destruct (SFltb v Ieee.one) eqn:E1.
    + destruct (SFltb Ieee.zero v) eqn:E0;
        [now apply SFltb_SFleb | reflexivity].
    + reflexivity.
  - unfold Ieee.clamp, Ieee.py_max, Ieee.py_min.
    destruct (SFltb v Ieee.one) eqn:E1.
    + destruct (SFltb Ieee.zero v) eqn:E0;
        [now apply SFltb_SFleb | reflexivity].
    + reflexivity.
Qed.

(** ** Hit testing *)

Lemma hit_scan_cons (px py : R) (idx : Z) (nd : Node) (ns : list Node) :
  hit_scan px py idx (nd :: ns)
  = if Rlt_dec (distance px py (fst (fst nd))) (snd (fst nd) + 20)
    then (Some (id (snd nd)), idx)
    else hit_scan px py (idx + 1)%Z ns.
Proof. destruct nd as [[c r] w]. reflexivity. Qed.

Lemma hit_scan_hit (px py : R) (idx : Z) (nd : Node) (ns : list Node) :
  is_hit px py nd ->
  hit_scan px py idx (nd :: ns) = (Some (id (snd nd)), idx).
Proof.
  intro H. rewrite hit_scan_cons.
  destruct (Rlt_dec _ _) as [_ | Hn]; [reflexivity | contradiction].
Qed.

Lemma hit_scan_miss (px py : R) (idx : Z) (nd : Node) (ns : list Node) :
  ~ is_hit px py nd ->
  hit_scan px py idx (nd :: ns) = hit_scan px py (idx + 1)%Z ns.
Proof.
  intro H. rewrite hit_scan_cons.
  destruct (Rlt_dec _ _) as [Hy | _]; [contradiction | reflexivity].
Qed.

(** The scan answers the first node that is hit, with its position, and
    the sentinel pair when no node is hit. *)
Lemma hit_scan_first (px py : R) (ns : list Node) :
  forall idx,
    match hit_scan px py idx ns with
    | (Some hid, k) =>
        exists (n : nat) (nd : Node),
          k = (idx + Z.of_nat n)%Z
          /\ nth_error ns n = Some nd
          /\ hid = id (snd nd)
          /\ is_hit px py nd
          /\ forall n' nd', (n' < n)%nat -> nth_error ns n' = Some nd' ->
                            ~ is_hit px py nd'
    | (None, k) =>
        k = (-1)%Z /\ forall nd, In nd ns -> ~ is_hit px py nd
    end.
Proof.
  induction ns as [| nd ns IH]; intro idx.
  - cbn. split; [reflexivity | intros nd []].
  - rewrite hit_scan_cons. destruct (Rlt_dec _ _) as [Hy | Hn].
    + exists 0%nat, nd. repeat split; [lia | exact Hy |].
      intros n' nd' Hlt. lia.
    + specialize (IH (idx + 1)%Z).
      destruct (hit_scan px py (idx + 1) ns) as [[hid |] k].
      * destruct IH as [n [nd0 [Hk [Hnth [Hid [Hhit Hfirst]]]]]].
        exists (S n), nd0. repeat split; auto; [lia |].
        intros [| n'] nd' Hlt Hnth'.
        -- injection Hnth' as <-. exact Hn.
        -- apply (Hfirst n' nd'); [lia | exact Hnth'].
      * destruct IH as [Hk Hall]. split; [exact Hk |].
        intros nd' [<- | Hin]; [exact Hn | now apply Hall].
Qed.

Lemma win_node_eq self angle hub_x hub_y num_wins j fidx win :
  win_node self (_anim_progress self) angle hub_x hub_y num_wins j fidx win
  = (polar_from (hub_x, hub_y) (_anim_progress self)
                (IZR (spoke_length self)) (angle + spoke_offset num_wins j),
     stored_radius self fidx win, win).
Proof.
  rewrite (surjective_pairing (win_node _ _ _ _ _ _ _ _ _)).
  rewrite (surjective_pairing (fst (win_node _ _ _ _ _ _ _ _ _))).
  now rewrite win_node_centre, win_node_radius, win_node_window.
Qed.



(** ** A ring on two windows *)

Lemma full_progress : Rmax 0 (Rmin 1 1) = 1%R.
Proof.
  unfold Rmin. destruct (Rle_dec 1 1); unfold Rmax;
    destruct (Rle_dec 0 1); lra.
Qed.

Lemma top_angle : (2 * PI * INR 0 / INR 2 - PI / 2 = - (PI / 2))%R.
Proof. cbn [INR]. field. Qed.

Lemma bottom_angle : (2 * PI * INR 1 / INR 2 - PI / 2 = PI / 2)%R.
Proof. cbn [INR]. field. Qed.

Lemma cos_top : cos (- (PI / 2)) = 0%R.
Proof. rewrite cos_neg. apply cos_PI2. Qed.

Lemma sin_top : sin (- (PI / 2)) = (-1)%R.
Proof. rewrite sin_neg, sin_PI2. reflexivity. Qed.

(** The nodes a painted ring on [winA] and [winB] holds at full progress. *)
Lemma two_windows_nodes (self : WindowRing) :
  groups self = group_windows [winA; winB] ->
  ring_size self = RING_SIZE ->
  hub_radius self = HUB_RADIUS ->
  spoke_length self = SPOKE_LENGTH ->
  _anim_progress self = 1%R ->
  node_positions (paintEvent self)
  = [((400, 140)%R, stored_radius self 0 winA, winA);
     ((400, 660)%R, stored_radius self 1 winB, winB)].
Proof.
  intros Hg Hsize Hhub Hspoke Hprog.
  unfold paintEvent. cbn [node_positions with_layout].
  rewrite paint_scene_eq. cbn [nodes]. rewrite Hg.
  change (sorted (groups_keys (group_windows [winA; winB])))
    with ["Firefox"; "xterm"].
  cbn [length apps_nodes]. unfold app_nodes. rewrite Hg.
  change (groups_get "Firefox" (group_windows [winA; winB])) with [winA].
  change (groups_get "xterm" (group_windows [winA; winB])) with [winB].
  cbn [length win_nodes Z.add Z.of_nat Pos.of_succ_nat].
  rewrite !win_node_eq.
  unfold hub_centre, polar_from, spoke_offset. cbn [fst snd Nat.ltb Nat.leb].
  rewrite Hsize, Hhub, Hspoke, Hprog, top_angle, bottom_angle, !Rplus_0_r.
  rewrite cos_top, sin_top, cos_PI2, sin_PI2.
  unfold RING_SIZE, HUB_RADIUS, SPOKE_LENGTH. cbn [Datatypes.app].
  repeat match goal with
         | |- _ :: _ = _ :: _ => apply f_equal2
         | |- (_, _) = (_, _) => apply f_equal2
         end; try reflexivity; lra.
Qed.


Lemma ring_two_nodes :
  node_positions ring_two
  = [((400, 140)%R, (IZR NODE_RADIUS * 1)%R, winA);
     ((400, 660)%R, (IZR NODE_RADIUS * 1)%R, winB)].
Proof.
  unfold ring_two.
  rewrite two_windows_nodes; try reflexivity; [| exact full_progress].
  unfold stored_radius.
  cbn [hover_win_id selected_index set_anim_progress with_anim_progress
       WindowRing_init id_is orb Z.eqb _anim_progress].
  now rewrite full_progress.
Qed.

Lemma ring_two_flat : flat_windows ring_two = [winA; winB].
Proof. unfold ring_two. rewrite flat_windows_paintEvent. reflexivity. Qed.

Lemma distance_same (x y : R) : distance x y (x, y) = 0%R.
Proof.
  unfold distance. cbn [fst snd].
  replace ((x - x) * (x - x) + (y - y) * (y - y))%R with 0%R by ring.
  apply sqrt_0.
Qed.


(** The pointer enters a node: the hover moves to it and a peek for it is
    armed. *)
Lemma mouseMoveEvent_enter (self : WindowRing) (px py : R) (h : string)
      (k : Z) :
  hit_scan px py 0 (node_positions self) = (Some h, k) ->
  id_neq (Some h) (hover_win_id self) = true ->
  truthy (Some h) = Some h ->
  mouseMoveEvent self px py
  = with_timer true
      (with_pending (Some h)
         (with_timer false (with_hover (Some h) k self))).
Proof.
  intros Hscan Hneq Htrue. unfold mouseMoveEvent. rewrite Hscan, Hneq.
  cbn [hover_win_id with_timer with_hover]. rewrite Htrue. reflexivity.
Qed.

Lemma ring_hovering_eq :
  ring_hovering
  = with_timer true
      (with_pending (Some "0x01")
         (with_timer false (with_hover (Some "0x01") 0%Z ring_two))).
Proof.
  unfold ring_hovering. apply mouseMoveEvent_enter; try reflexivity.
  rewrite ring_two_nodes. apply hit_scan_hit.
  unfold is_hit. cbn [fst snd]. rewrite distance_same.
  unfold NODE_RADIUS. lra.
Qed.


(** ** The peek timer *)

(** [_do_peek] returns whatever the external process does. *)
Lemma _do_peek_returns (self : WindowRing) (o : outcome) :
  exists self', _do_peek self o = Returned self'.
Proof.
  unfold _do_peek. destruct (truthy (pending_peek_id self));
    [destruct o |]; eexists; reflexivity.
Qed.

(** A pointer move that changes the hover leaves the timer armed only for
    the id now hovered. *)
Lemma mouseMoveEvent_rearms (self : WindowRing) (px py : R) :
  hover_win_id (mouseMoveEvent self px py) <> hover_win_id self ->
  peek_timer_active (mouseMoveEvent self px py) = true ->
  pending_peek_id (mouseMoveEvent self px py)
  = hover_win_id (mouseMoveEvent self px py).
Proof.
  unfold mouseMoveEvent.
  destruct (hit_scan px py 0 (node_positions self)) as [h k].
  destruct (id_neq h (hover_win_id self)); [| congruence].
  cbn [hover_win_id with_timer with_hover].
  destruct (truthy h); cbn; [reflexivity | discriminate].
Qed.

(** C3 fails on the code.  The pointer enters [winA], which arms a peek
    for "0x01"; a Tab press then moves the hover to [winB] without
    touching the timer; when the timer expires a peek request for the old
    id "0x01" is issued. *)
Theorem peek_fires_for_old_id_after_key_navigation :
  let armed := mouseMoveEvent ring_two 400 140 in
  let moved := state_of (keyPressEvent armed Key_Tab (Exits 0)) in
  let fired := state_of (peek_timeout moved (Exits 0)) in
  (hover_win_id armed = Some "0x01"
   /\ peek_timer_active armed = true
   /\ pending_peek_id armed = Some "0x01")
  /\ (hover_win_id moved = Some "0x02"
      /\ peek_timer_active moved = true
      /\ requests moved = [])
  /\ requests fired = [Peek "0x01"]
  /\ run ring_two [EvMouseMove 400 140; EvKeyPress Key_Tab (Exits 0);
                   EvPeekTimeout (Exits 0)]
     = Returned fired.
Proof.
  cbn zeta. fold ring_hovering. rewrite ring_hovering_eq.
  set (armed := with_timer true _).
  assert (Hflat : flat_windows armed = [winA; winB]) by exact ring_two_flat.
  assert (Hkey : keyPressEvent armed Key_Tab (Exits 0)
                 = Returned (with_hover (Some "0x02") 1%Z armed)).
  { rewrite keyPressEvent_forward by (left; reflexivity).
    unfold navigate. rewrite Hflat. reflexivity. }
  split; [repeat split |].
  rewrite Hkey. cbn [state_of].
  split; [repeat split |].
  split; [reflexivity |].
  cbn [run handle]. fold ring_hovering. rewrite ring_hovering_eq.
  fold armed. rewrite Hkey. reflexivity.
Qed.

(** ** External calls that fail *)

(** C5 fails on the code for the two activation paths.  With [winA]
    hovered, a left press or a confirm key whose [wmctrl] call cannot be
    run ends with the exception leaving the handler, the ring not closed;
    when the call hangs the handler never returns, and an Escape press
    queued behind it does not close the ring.  The peek path, which
    guards the call, returns whatever the process does. *)
Theorem activation_failure_not_swallowed :
  (exists s, mousePressEvent ring_hovering LeftButton Fails = Propagated s
             /\ closed s = false
             /\ requests s = [Activate "0x01"])
  /\ (exists s, keyPressEvent ring_hovering Key_Return Fails = Propagated s
                /\ closed s = false
                /\ requests s = [Activate "0x01"])
  /\ (exists s, run ring_hovering [EvMousePress LeftButton Hangs;
                                   EvKeyPress Key_Escape (Exits 0)]
                = Blocked s
                /\ closed s = false)
  /\ (forall o, exists s, peek_timeout ring_hovering o = Returned s
                          /\ requests s = [Peek "0x01"]).
Proof.
  rewrite ring_hovering_eq. set (hovering := with_timer true _).
  repeat split.
  - exists (issue (Activate "0x01") hovering). repeat split.
  - exists (issue (Activate "0x01") hovering). repeat split.
  - exists (issue (Activate "0x01") hovering). repeat split.
  - intro o. exists (issue (Peek "0x01") (with_timer false hovering)).
    destruct o; repeat split.
Qed.

(** * Further properties of the code *)

(** ** Placement of the ring *)

(** When the available area has room for the ring and its padding, the
    ring is placed inside it, 15 pixels at least from each edge, and it is
    centred on the button whenever that position is inside. *)
Theorem ring_origin_inside (global_center : QPoint) (geo : QRect) :
  let o := ring_origin RING_SIZE global_center geo in
  let target_x := (x global_center - RING_SIZE / 2)%Z in
  let target_y := (y global_center - RING_SIZE / 2)%Z in
  (left geo + 15 <= right geo - RING_SIZE - 15)%Z ->
  (top geo + 15 <= bottom geo - RING_SIZE - 15)%Z ->
  (left geo + 15 <= x o /\ x o + RING_SIZE <= right geo - 15)%Z
  /\ (top geo + 15 <= y o /\ y o + RING_SIZE <= bottom geo - 15)%Z
  /\ ((left geo + 15 <= target_x <= right geo - RING_SIZE - 15)%Z ->
      x o = target_x)
  /\ ((top geo + 15 <= target_y <= bottom geo - RING_SIZE - 15)%Z ->
      y o = target_y).
Proof.
  unfold ring_origin. cbn [x y]. intros Hx Hy. repeat split; lia.
Qed.

Lemma ring_origin_inside_witness :
  let o := ring_origin RING_SIZE (mkPoint 332 332) (mkRect 0 0 1919 1079) in
  (0 + 15 <= x o /\ x o + RING_SIZE <= 1919 - 15)%Z
  /\ (0 + 15 <= y o /\ y o + RING_SIZE <= 1079 - 15)%Z.
Proof.
  assert (Hx : (left (mkRect 0 0 1919 1079) + 15
                <= right (mkRect 0 0 1919 1079) - RING_SIZE - 15)%Z)
    by (vm_compute; discriminate).
  assert (Hy : (top (mkRect 0 0 1919 1079) + 15
                <= bottom (mkRect 0 0 1919 1079) - RING_SIZE - 15)%Z)
    by (vm_compute; discriminate).
  pose proof (ring_origin_inside (mkPoint 332 332) (mkRect 0 0 1919 1079)
                                 Hx Hy) as [H1 [H2 _]].
  split; [exact H1 | exact H2].
Defined.



(** ** Substrings *)

Lemma prefix_app (p s : string) :
  String.prefix p s = true <-> exists t, s = (p ++ t)%string.
Proof.
  revert s. induction p as [| c p IH]; intro s.
  - split; [intros _; now exists s | intros _; now destruct s].
  - destruct s as [| d s]; cbn [String.prefix].
    + split; [discriminate | intros [t Ht]; discriminate Ht].
    + destruct (ascii_dec c d) as [-> | Hne].
      * rewrite IH. split; intros [t Ht]; exists t; cbn in *; congruence.
      * split; [discriminate | intros [t Ht]; cbn in Ht; congruence].
Qed.

(** [x in s] holds exactly when [s] is [a ++ x ++ b] for some [a], [b]. *)
Lemma contains_app (p s : string) :
  contains p s = true <-> exists a b, s = (a ++ p ++ b)%string.
Proof.
  induction s as [| c s IH].
  - cbn [contains]. rewrite orb_false_r, prefix_app. split.
    + intros [t Ht]. now exists ""%string, t.
    + intros [a [b H]]. destruct a; [now exists b | discriminate H].
  - cbn [contains]. rewrite orb_true_iff, prefix_app, IH. split.
    + intros [[t Ht] | [a [b Hab]]].
      * now exists ""%string, t.
      * exists (String c a), b. cbn. now rewrite Hab.
    + intros [[| d a] [b H]].
      * left. now exists b.
      * right. cbn in H. injection H as _ H. now exists a, b.
Qed.

Lemma append_assoc (a b c : string) :
  ((a ++ b) ++ c = a ++ (b ++ c))%string.
Proof. induction a; cbn; [reflexivity | now rewrite IHa]. Qed.

Lemma contains_trans (p q s : string) :
  contains p q = true -> contains q s = true -> contains p s = true.
Proof.
  rewrite !contains_app. intros [a [b ->]] [a' [b' ->]].
  exists (a' ++ a)%string, (b ++ b')%string.
  now rewrite !append_assoc.
Qed.

(** ** What decides the normalised key *)

Lemma normalize_decision_eq (app_name : string) :
  _normalize_app_name app_name = normalize_decision app_name.
Proof.
  unfold _normalize_app_name, normalize_with, normalize_decision, any_in.
  cbn [existsb]. set (l := lower app_name). rewrite !orb_false_r.
  pose proof (contains_trans "code" "vscode" l eq_refl) as Hvs.
  pose proof (contains_trans "terminal" "qterminal" l eq_refl) as Hqt.
  pose proof (contains_trans "terminal" "gnome-terminal" l eq_refl) as Hgt.
  destruct (contains "brave" l); [now rewrite !orb_true_r |].
  destruct (contains "firefox" l); [now rewrite !orb_true_r |].
  destruct (contains "chrome" l); [reflexivity |].
  destruct (false || (contains "chromium" l
                       || (false || (false || contains "edge" l)))).
  all: destruct (contains "code" l); [reflexivity |].
  all: destruct (contains "vscode" l); [now discriminate Hvs |].
  all: cbn [orb].
  all: destruct (contains "vscodium" l); [reflexivity |].
  all: destruct (contains "terminal" l); [reflexivity |].
  all: destruct (contains "qterminal" l); [now discriminate Hqt |].
  all: destruct (contains "gnome-terminal" l); [now discriminate Hgt |].
  all: cbn [orb]; now destruct (contains "konsole" l).
Qed.

(** Of the fifteen needles of the normaliser six decide nothing:
    the result is fixed by "brave", "firefox", "chrome", then "code" or
    "vscodium", then "terminal" or "konsole", looked up in this order in
    the lower-cased name.  "chromium" and "edge" never yield a key of
    their own. *)
Theorem normalize_by_needles (app_name : string) :
  _normalize_app_name app_name
  = let l := lower app_name in
    if contains "brave" l then "Brave"
    else if contains "firefox" l then "Firefox"
    else if contains "chrome" l then "Chrome"
    else if contains "code" l || contains "vscodium" l then "Code"
    else if contains "terminal" l || contains "konsole" l then "Terminal"
    else app_name.
Proof. exact (normalize_decision_eq app_name). Qed.

(** Grouping ignores case: two names that agree after lower-casing get
    the same canonical key, or both are left as they are. *)
Theorem normalize_case_insensitive (a b : string) :
  lower a = lower b ->
  _normalize_app_name a = _normalize_app_name b
  \/ (_normalize_app_name a = a /\ _normalize_app_name b = b).
Proof.
  intro H. rewrite !normalize_decision_eq. unfold normalize_decision.
  rewrite H.
  repeat match goal with
         | |- context [if ?c then _ else _] => destruct c; [now left |]
         end.
  now right.
Qed.

Lemma normalize_case_insensitive_witness :
  _normalize_app_name "FIREFOX" = _normalize_app_name "Firefox"
  \/ (_normalize_app_name "FIREFOX" = "FIREFOX"
      /\ _normalize_app_name "Firefox" = "Firefox").
Proof. apply normalize_case_insensitive. reflexivity. Defined.

(** ** The order of the hubs *)

Lemma insert_sorted_perm (k : string) (l : list string) :
  Permutation (insert_sorted k l) (k :: l).
Proof.
  induction l as [| h t IH]; cbn [insert_sorted]; [reflexivity |].
  destruct (String.leb k h); [reflexivity |].
  rewrite IH. apply perm_swap.
Qed.

Lemma sorted_perm (l : list string) : Permutation (sorted l) l.
Proof.
  induction l as [| k l IH]; cbn [sorted fold_right]; [reflexivity |].
  rewrite insert_sorted_perm. now apply perm_skip.
Qed.




(** ** The flattened order holds every window once *)

Lemma windows_of_perm (self : WindowRing) (l1 l2 : list string) :
  Permutation l1 l2 ->
  Permutation (windows_of self l1) (windows_of self l2).
Proof.
  intro H. unfold windows_of. rewrite <- !flat_map_concat_map.
  now apply Permutation_flat_map.
Qed.

Lemma windows_of_keys (self : WindowRing) :
  NoDup (groups_keys (groups self)) ->
  windows_of self (groups_keys (groups self)) = concat (map snd (groups self)).
Proof.
  intro Hnd. unfold windows_of, groups_keys. rewrite map_map. f_equal.
  apply map_ext_in. intros [k ws] Hin. cbn [fst snd].
  now apply groups_get_In.
Qed.

Lemma windows_of_sorted_perm (self : WindowRing) (windows : list Window) :
  groups self = group_windows windows ->
  Permutation (windows_of self (sorted (groups_keys (groups self)))) windows.
Proof.
  intro Hg.
  rewrite (windows_of_perm self _ _ (sorted_perm _)).
  rewrite windows_of_keys by (rewrite Hg; apply group_windows_NoDup).
  rewrite Hg. apply group_windows_concat.
Qed.

Lemma win_nodes_windows self prog angle hub_x hub_y num_wins wins :
  forall j fidx,
    map snd (win_nodes self prog angle hub_x hub_y num_wins j fidx wins) = wins.
Proof.
  induction wins as [| w rest IH]; intros j fidx; [reflexivity |].
  cbn [win_nodes map]. now rewrite IH, win_node_window.
Qed.

Lemma apps_nodes_windows self cx cy prog num_apps app_names :
  forall i fidx,
    map snd (apps_nodes self cx cy prog num_apps i fidx app_names)
    = windows_of self app_names.
Proof.
  unfold windows_of.
  induction app_names as [| a rest IH]; intros i fidx; [reflexivity |].
  cbn [apps_nodes map concat]. rewrite map_app, IH. f_equal.
  unfold app_nodes. apply win_nodes_windows.
Qed.

Lemma node_windows_paintEvent (self : WindowRing) :
  map snd (node_positions (paintEvent self)) = flat_windows (paintEvent self).
Proof.
  unfold paintEvent. cbn [node_positions flat_windows with_layout].
  rewrite paint_scene_eq. cbn [nodes flat]. apply apps_nodes_windows.
Qed.


(** ** Every node is painted inside the widget *)

Lemma win_node_inside self angle hub_angle_ num_wins j fidx win :
  ring_size self = RING_SIZE ->
  hub_radius self = HUB_RADIUS ->
  spoke_length self = SPOKE_LENGTH ->
  (0 <= _anim_progress self <= 1)%R ->
  let c := (IZR (ring_size self) / 2)%R in
  let hub := polar_from (c, c) (_anim_progress self) (IZR (hub_radius self))
                        hub_angle_ in
  node_inside (win_node self (_anim_progress self) angle (fst hub) (snd hub)
                        num_wins j fidx win).
Proof.
  intros Hsize Hhub Hspoke Hprog c hub. rewrite win_node_eq.
  subst hub c. unfold node_inside, polar_from, stored_radius.
  cbn [fst snd]. rewrite Hsize, Hhub, Hspoke.
  unfold RING_SIZE, HUB_RADIUS, SPOKE_LENGTH, NODE_RADIUS.
  set (p := _anim_progress self) in *.
  pose proof (COS_bound hub_angle_). pose proof (SIN_bound hub_angle_).
  pose proof (COS_bound (angle + spoke_offset num_wins j)).
  pose proof (SIN_bound (angle + spoke_offset num_wins j)).
  split; [destruct (_ || _); lra |].
  split; split; nra.
Qed.

Lemma win_nodes_Forall (P : Node -> Prop) self prog angle hub_x hub_y
      num_wins wins :
  (forall j fidx win,
      P (win_node self prog angle hub_x hub_y num_wins j fidx win)) ->
  forall j fidx,
    Forall P (win_nodes self prog angle hub_x hub_y num_wins j fidx wins).
Proof.
  intro H. induction wins as [| w rest IH]; intros j fidx;
    cbn [win_nodes]; constructor; auto.
Qed.

Lemma paintEvent_inside (self : WindowRing) :
  ring_size self = RING_SIZE ->
  hub_radius self = HUB_RADIUS ->
  spoke_length self = SPOKE_LENGTH ->
  (0 <= _anim_progress self <= 1)%R ->
  Forall node_inside (node_positions (paintEvent self)).
Proof.
  intros Hsize Hhub Hspoke Hprog.
  unfold paintEvent. cbn [node_positions with_layout].
  rewrite paint_scene_eq. cbn [nodes].
  generalize (length (sorted (groups_keys (groups self)))) as n.
  generalize 0%Z as fidx. generalize 0%nat as i.
  induction (sorted (groups_keys (groups self))) as [| a rest IH];
    intros i fidx n; cbn [apps_nodes]; [constructor |].
  apply Forall_app. split; [| apply IH].
  unfold app_nodes. apply win_nodes_Forall. intros j f win.
  rewrite hub_centre_polar. now apply win_node_inside.
Qed.

(** ** An invariant of the ring *)

Section Invariant.
Variable windows : list Window.

Lemma truthy_Some (o : option string) (s : string) :
  truthy o = Some s -> o = Some s.
Proof.
  destruct o as [t |]; cbn [truthy]; [| discriminate].
  destruct (String.eqb t ""); [discriminate | exact (fun H => H)].
Qed.

Lemma flat_in_snapshot (self : WindowRing) (w : Window) :
  ring_invariant windows self -> In w (flat_windows self) -> In w windows.
Proof.
  intros Hinv Hin. destruct (inv_flat _ _ Hinv) as [E | E]; rewrite E in Hin.
  - destruct Hin.
  - eapply Permutation_in; [| exact Hin].
    apply windows_of_sorted_perm, (inv_groups _ _ Hinv).
Qed.

Lemma hover_in_snapshot (self : WindowRing) (h : string) :
  ring_invariant windows self -> hover_win_id self = Some h ->
  snapshot_id windows h.
Proof.
  intros Hinv Hh. pose proof (inv_hover _ _ Hinv) as Hag.
  unfold hover_agrees in Hag. rewrite Hh in Hag.
  destruct Hag as [_ [w [Hnth Hid]]]. exists w. split; [| exact Hid].
  eapply flat_in_snapshot; [exact Hinv |].
  eapply nth_error_In; exact Hnth.
Qed.

Lemma invariant_init : ring_invariant windows (WindowRing_init windows).
Proof.
  constructor; cbn; try reflexivity; auto.
  lra.
Qed.

Lemma invariant_paintEvent (self : WindowRing) :
  ring_invariant windows self -> ring_invariant windows (paintEvent self).
Proof.
  intro Hinv. pose proof (flat_windows_paintEvent self) as Hflat.
  constructor; try (destruct Hinv; assumption).
  - apply node_windows_paintEvent.
  - destruct Hinv. now apply paintEvent_inside.
  - right. exact Hflat.
  - pose proof (inv_hover _ _ Hinv) as Hag. unfold hover_agrees in *.
    change (hover_win_id (paintEvent self)) with (hover_win_id self).
    change (selected_index (paintEvent self)) with (selected_index self).
    destruct (hover_win_id self) as [h |]; [| exact Hag].
    destruct Hag as [H0 [w [Hnth Hid]]]. split; [exact H0 |].
    exists w. split; [| exact Hid].
    destruct (inv_flat _ _ Hinv) as [E | E]; rewrite E in Hnth.
    + now destruct (Z.to_nat (selected_index self)).
    + rewrite Hflat. exact Hnth.
Qed.

Lemma invariant_set_anim_progress (self : WindowRing) (val : R) :
  ring_invariant windows self ->
  ring_invariant windows (set_anim_progress self val).
Proof.
  intro Hinv. constructor; try (destruct Hinv; assumption).
  apply clamp_unit_interval.
Qed.

Lemma invariant_mouseMoveEvent (self : WindowRing) (px py : R) :
  ring_invariant windows self ->
  ring_invariant windows (mouseMoveEvent self px py).
Proof.
  intro Hinv. unfold mouseMoveEvent.
  pose proof (hit_scan_first px py (node_positions self) 0%Z) as Hscan.
  destruct (hit_scan px py 0 (node_positions self)) as [new_hover new_sel].
  destruct (id_neq new_hover (hover_win_id self)); [| exact Hinv].
  cbn [hover_win_id with_timer with_hover].
  assert (Hag : hover_agrees (with_hover new_hover new_sel self)).
  { unfold hover_agrees. cbn [hover_win_id selected_index flat_windows
                               with_hover].
    destruct new_hover as [hid |].
    - destruct Hscan as [n [nd [Hk [Hnth [Hid _]]]]].
      split; [lia |]. exists (snd nd). split; [| now symmetry].
      rewrite <- (inv_nodes _ _ Hinv), Hk, Z.add_0_l, Nat2Z.id.
      now apply map_nth_error.
    - now destruct Hscan. }
  destruct (truthy new_hover) as [t |] eqn:Ht.
  - apply truthy_Some in Ht. subst new_hover.
    constructor; try (destruct Hinv; assumption).
    change (snapshot_id windows t).
    destruct Hag as [_ [w [Hnth Hid]]]. exists w. split; [| exact Hid].
    eapply flat_in_snapshot; [exact Hinv |].
    eapply nth_error_In; exact Hnth.
  - constructor; destruct Hinv; assumption.
Qed.

Lemma invariant_close (self : WindowRing) :
  ring_invariant windows self -> ring_invariant windows (close self).
Proof. intro Hinv. constructor; destruct Hinv; assumption. Qed.

Lemma invariant_issue (self : WindowRing) (r : Request) :
  ring_invariant windows self -> snapshot_id windows (request_id r) ->
  ring_invariant windows (issue r self).
Proof.
  intros Hinv Hr. constructor; try (destruct Hinv; assumption).
  cbn [requests issue]. apply Forall_app. split.
  - apply (inv_requests _ _ Hinv).
  - repeat constructor. exact Hr.
Qed.

Lemma invariant_activate_then_close (self : WindowRing) (wid : string)
      (o : outcome) :
  ring_invariant windows self -> truthy (hover_win_id self) = Some wid ->
  ring_invariant windows (state_of (activate_then_close self wid o)).
Proof.
  intros Hinv Ht. apply truthy_Some in Ht.
  assert (Hi : ring_invariant windows (issue (Activate wid) self)).
  { apply invariant_issue; [exact Hinv |].
    now apply (hover_in_snapshot self). }
  unfold activate_then_close.
  destruct (subprocess_run false o); cbn [state_of];
    [now apply invariant_close | exact Hi | exact Hi].
Qed.

Lemma invariant_mousePressEvent (self : WindowRing) (button : MouseButton)
      (o : outcome) :
  ring_invariant windows self ->
  ring_invariant windows (state_of (mousePressEvent self button o)).
Proof.
  intro Hinv. unfold mousePressEvent.
  destruct (MouseButton_eqb button LeftButton); [| exact Hinv].
  destruct (truthy (hover_win_id self)) as [wid |] eqn:Ht.
  - now apply invariant_activate_then_close.
  - now apply invariant_close.
Qed.

Lemma invariant_navigate (self : WindowRing) (delta : Z) :
  ring_invariant windows self ->
  ring_invariant windows (state_of (navigate self delta)).
Proof.
  intro Hinv.
  destruct (flat_windows self) as [| w0 rest] eqn:Hflat.
  - unfold navigate. rewrite Hflat. exact Hinv.
  - assert (Hne : flat_windows self <> []) by congruence.
    destruct (navigate_spec self delta Hne) as [win [Hnth ->]].
    cbn [state_of].
    constructor; try (destruct Hinv; assumption).
    unfold hover_agrees.
    cbn [hover_win_id selected_index flat_windows with_hover].
    split.
    + apply Z.mod_pos_bound. rewrite Hflat. cbn [length]. lia.
    + exists win. split; [exact Hnth | reflexivity].
Qed.

Lemma invariant_keyPressEvent (self : WindowRing) (key : Key) (o : outcome) :
  ring_invariant windows self ->
  ring_invariant windows (state_of (keyPressEvent self key o)).
Proof.
  intro Hinv. unfold keyPressEvent.
  destruct (Key_in key [Key_Escape]); [now apply invariant_close |].
  destruct (KEYBOARD_NAV && Key_in key forward_keys);
    [now apply invariant_navigate |].
  destruct (KEYBOARD_NAV && Key_in key backward_keys);
    [now apply invariant_navigate |].
  destruct (Key_in key [Key_Return; Key_Space]); [| exact Hinv].
  destruct (truthy (hover_win_id self)) as [wid |] eqn:Ht;
    [now apply invariant_activate_then_close | exact Hinv].
Qed.

Lemma invariant_peek_timeout (self : WindowRing) (o : outcome) :
  ring_invariant windows self ->
  ring_invariant windows (state_of (peek_timeout self o)).
Proof.
  intro Hinv. unfold peek_timeout.
  destruct (peek_timer_active self); [| exact Hinv].
  assert (Hoff : ring_invariant windows (with_timer false self))
    by (constructor; destruct Hinv; assumption).
  unfold _do_peek. cbn [pending_peek_id with_timer].
  destruct (truthy (pending_peek_id self)) as [pid |] eqn:Ht; [| exact Hoff].
  apply truthy_Some in Ht.
  assert (Hi : ring_invariant windows
                              (issue (Peek pid) (with_timer false self))).
  { apply invariant_issue; [exact Hoff |].
    pose proof (inv_pending _ _ Hinv) as Hp. now rewrite Ht in Hp. }
  destruct (subprocess_run true o); exact Hi.
Qed.

Lemma invariant_handle (self : WindowRing) (e : event) :
  ring_invariant windows self ->
  ring_invariant windows (state_of (handle self e)).
Proof.
  intro Hinv. destruct e; cbn [handle state_of].
  - now apply invariant_paintEvent.
  - now apply invariant_set_anim_progress.
  - now apply invariant_mouseMoveEvent.
  - now apply invariant_mousePressEvent.
  - now apply invariant_keyPressEvent.
  - now apply invariant_peek_timeout.
Qed.

Lemma invariant_run (es : list event) :
  forall self,
    ring_invariant windows self ->
    ring_invariant windows (state_of (run self es)).
Proof.
  induction es as [| e es IH]; intros self Hinv; [exact Hinv |].
  cbn [run]. pose proof (invariant_handle self e Hinv) as He.
  destruct (handle self e) as [s | s | s]; cbn [state_of] in *; auto.
Qed.
End Invariant.

(** Every request the ring ever issues, peek or activation, names a
    window of the snapshot it was built from. *)
Theorem requests_name_snapshot_windows (windows : list Window)
        (es : list event) (r : Request) :
  In r (requests (state_of (run (WindowRing_init windows) es))) ->
  exists w, In w windows /\ id w = request_id r.
Proof.
  intro Hin.
  pose proof (invariant_run windows es _ (invariant_init windows)) as Hinv.
  pose proof (inv_requests _ _ Hinv) as Hall.
  rewrite Forall_forall in Hall. exact (Hall r Hin).
Qed.

(** Hover and selection stay in step along every run: when no window is
    hovered the selected index is the sentinel -1, and when one is, the
    selected index is in range and the entry of the flattened sequence at
    that index is a window of the snapshot with the hovered id. *)
Theorem hover_and_selection_agree (windows : list Window) (es : list event) :
  let self := state_of (run (WindowRing_init windows) es) in
  match hover_win_id self with
  | None => selected_index self = (-1)%Z
  | Some h =>
      (0 <= selected_index self < Z.of_nat (length (flat_windows self)))%Z
      /\ exists w,
          nth_error (flat_windows self) (Z.to_nat (selected_index self))
          = Some w
          /\ id w = h /\ In w windows
  end.
Proof.
  cbn zeta.
  pose proof (invariant_run windows es _ (invariant_init windows)) as Hinv.
  pose proof (inv_hover _ _ Hinv) as Hag. unfold hover_agrees in Hag.
  destruct (hover_win_id _) as [h |]; [| exact Hag].
  destruct Hag as [H0 [w [Hnth Hid]]].
  assert (Hlt : (Z.to_nat (selected_index
                             (state_of (run (WindowRing_init windows) es)))
                 < length (flat_windows
                             (state_of (run (WindowRing_init windows) es))))%nat)
    by (apply nth_error_Some; congruence).
  split; [lia |]. exists w. repeat split; auto.
  eapply flat_in_snapshot; [exact Hinv |].
  eapply nth_error_In; exact Hnth.
Qed.


(** ** Geometry of the layout *)








(** Along every run each node disc, hovered or not, lies inside the
    800 x 800 widget: its radius is at most 25.6 and its centre is
    between 140 and 660 on both axes. *)
Theorem nodes_stay_inside_widget (windows : list Window) (es : list event)
        (nd : Node) :
  In nd (node_positions (state_of (run (WindowRing_init windows) es))) ->
  let cx := fst (fst (fst nd)) in
  let cy := snd (fst (fst nd)) in
  let radius := snd (fst nd) in
  (0 <= radius <= 25.6
   /\ 0 <= cx - radius /\ cx + radius <= 800
   /\ 0 <= cy - radius /\ cy + radius <= 800)%R.
Proof.
  intros Hin cx cy radius.
  pose proof (invariant_run windows es _ (invariant_init windows)) as Hinv.
  pose proof (inv_inside _ _ Hinv) as Hall.
  rewrite Forall_forall in Hall. specialize (Hall nd Hin).
  unfold node_inside in Hall. subst cx cy radius. lra.
Qed.

Lemma nodes_stay_inside_widget_witness :
  let nd : Node := ((400, 140)%R, (IZR NODE_RADIUS * 1)%R, winA) in
  (0 <= snd (fst nd) <= 25.6
   /\ 0 <= fst (fst (fst nd)) - snd (fst nd)
   /\ fst (fst (fst nd)) + snd (fst nd) <= 800
   /\ 0 <= snd (fst (fst nd)) - snd (fst nd)
   /\ snd (fst (fst nd)) + snd (fst nd) <= 800)%R.
Proof.
  apply (nodes_stay_inside_widget [winA; winB] [EvAnim 1; EvPaint]).
  change (state_of (run (WindowRing_init [winA; winB]) [EvAnim 1; EvPaint]))
    with ring_two.
  rewrite ring_two_nodes. left. reflexivity.
Defined.

(** ** Pointer moves *)




(** ** The peek timer under pointer input *)

Lemma peek_pending_mouseMoveEvent (self : WindowRing) (px py : R) :
  (peek_timer_active self = true ->
   pending_peek_id self = hover_win_id self) ->
  peek_timer_active (mouseMoveEvent self px py) = true ->
  pending_peek_id (mouseMoveEvent self px py)
  = hover_win_id (mouseMoveEvent self px py).
Proof.
  intro H. unfold mouseMoveEvent.
  destruct (hit_scan px py 0 (node_positions self)) as [h k].
  destruct (id_neq h (hover_win_id self)); [| exact H].
  cbn [hover_win_id with_timer with_hover].
  destruct (truthy h); cbn; [reflexivity | discriminate].
Qed.

Lemma peek_pending_handle (self : WindowRing) (e : event) :
  is_navigation e = false ->
  (peek_timer_active self = true ->
   pending_peek_id self = hover_win_id self) ->
  peek_timer_active (state_of (handle self e)) = true ->
  pending_peek_id (state_of (handle self e))
  = hover_win_id (state_of (handle self e)).
Proof.
  intros Hnav H.
  destruct e as [| val | px py | button o | key o | o]; cbn [handle state_of].
  - exact H.
  - exact H.
  - now apply peek_pending_mouseMoveEvent.
  - unfold mousePressEvent. destruct (MouseButton_eqb _ _); [| exact H].
    destruct (truthy _); [destruct o |]; exact H.
  - cbn [is_navigation] in Hnav. apply orb_false_iff in Hnav.
    destruct Hnav as [Hf Hb]. unfold keyPressEvent. rewrite Hf, Hb.
    rewrite !andb_false_r.
    destruct (Key_in key [Key_Escape]); [exact H |].
    destruct (Key_in key [Key_Return; Key_Space]); [| exact H].
    destruct (truthy _); [destruct o |]; exact H.
  - unfold peek_timeout. destruct (peek_timer_active self) eqn:Ha;
      [| cbn [state_of]; rewrite Ha; discriminate].
    unfold _do_peek. cbn [pending_peek_id with_timer].
    destruct (truthy _); [destruct o |]; cbn; discriminate.
Qed.

Lemma peek_pending_run (es : list event) :
  forallb (fun e => negb (is_navigation e)) es = true ->
  forall self,
    (peek_timer_active self = true ->
     pending_peek_id self = hover_win_id self) ->
    peek_timer_active (state_of (run self es)) = true ->
    pending_peek_id (state_of (run self es))
    = hover_win_id (state_of (run self es)).
Proof.
  induction es as [| e es IH]; intros Hes self H; [exact H |].
  cbn [forallb] in Hes. apply andb_true_iff in Hes. destruct Hes as [He Hes].
  apply negb_true_iff in He.
  pose proof (peek_pending_handle self e He H) as Hstep.
  cbn [run]. destruct (handle self e) as [s | s | s]; cbn [state_of] in *.
  - now apply IH.
  - now apply IH.
  - exact Hstep.
Qed.

(** As long as no navigation key is pressed, the peek timer can only fire
    for the window under the pointer: on expiry either nothing is
    requested, or one peek is, for the id hovered at that moment. *)
Theorem peek_is_for_hovered_window_without_navigation
        (windows : list Window) (es : list event) (o : outcome) :
  forallb (fun e => negb (is_navigation e)) es = true ->
  let self := state_of (run (WindowRing_init windows) es) in
  let after := state_of (peek_timeout self o) in
  requests after = requests self
  \/ exists h, hover_win_id self = Some h
               /\ requests after = requests self ++ [Peek h].
Proof.
  intros Hes self after.
  assert (H : peek_timer_active self = true ->
              pending_peek_id self = hover_win_id self).
  { apply peek_pending_run; [exact Hes | discriminate]. }
  subst after. unfold peek_timeout.
  destruct (peek_timer_active self); [| now left].
  specialize (H eq_refl). unfold _do_peek.
  cbn [pending_peek_id with_timer].
  destruct (truthy (pending_peek_id self)) as [pid |] eqn:Ht; [| now left].
  apply truthy_Some in Ht. right. exists pid.
  split; [congruence | destruct o; reflexivity].
Qed.

Lemma peek_is_for_hovered_window_without_navigation_witness :
  requests (state_of (peek_timeout ring_hovering (Exits 0)))
  = requests ring_hovering
  \/ exists h, hover_win_id ring_hovering = Some h
               /\ requests (state_of (peek_timeout ring_hovering (Exits 0)))
                  = requests ring_hovering ++ [Peek h].
Proof.
  exact (peek_is_for_hovered_window_without_navigation
           [winA; winB] [EvAnim 1; EvPaint; EvMouseMove 400 140] (Exits 0)
           eq_refl).
Defined.

(** ** Navigation keys compose *)




(** ** The floating button *)


Lemma button_snap_axis_close (v size lo hi : Z) :
  (Z.abs (Button.snap_axis v size lo hi - v) < 30)%Z.
Proof.
  unfold Button.snap_axis, SNAP_THRESHOLD.
  destruct (Z.ltb_spec (Z.abs (v - lo)) 25); [lia |].
  destruct (Z.ltb_spec (Z.abs (v + size - hi)) 25); lia.
Qed.

(** While dragging, the button follows the pointer: it is moved to the
    position it had at the press plus the pointer's displacement, exactly
    when there is no screen under the cursor, and within less than 30
    pixels of it on each axis when edge snapping applies. *)
Theorem button_follows_pointer (self : Button.FloatingButton)
        (global_pos : QPoint) (screen : option QRect) :
  Button.is_dragging self = true ->
  let target :=
    Button.QPoint_add (Button.drag_start_pos self)
                      (Button.QPoint_sub global_pos (Button.click_pos self)) in
  let moved := Button.pos (Button.mouseMoveEvent self global_pos screen) in
  (Z.abs (x moved - x target) < 30)%Z
  /\ (Z.abs (y moved - y target) < 30)%Z
  /\ (screen = None -> moved = target).
Proof.
  intros Hd target moved. subst moved.
  unfold Button.mouseMoveEvent. rewrite Hd. cbn [Button.pos].
  unfold Button.drag_position. fold target. cbn [SNAP_TO_EDGES].
  destruct screen as [geo |].
  - cbn [x y]. repeat split; try apply button_snap_axis_close. discriminate.
  - repeat split; lia.
Qed.

Lemma button_follows_pointer_witness :
  let self := Button.mkButton 64 (mkPoint 300 300) true (mkPoint 310 310)
                              (mkPoint 300 300) 0 false None in
  let target :=
    Button.QPoint_add (Button.drag_start_pos self)
      (Button.QPoint_sub (mkPoint 20 500) (Button.click_pos self)) in
  let moved :=
    Button.pos (Button.mouseMoveEvent self (mkPoint 20 500)
                                      (Some (mkRect 0 0 1919 1079))) in
  (Z.abs (x moved - x target) < 30)%Z
  /\ (Z.abs (y moved - y target) < 30)%Z
  /\ (Some (mkRect 0 0 1919 1079) = None -> moved = target).
Proof.
  exact (button_follows_pointer
           (Button.mkButton 64 (mkPoint 300 300) true (mkPoint 310 310)
                            (mkPoint 300 300) 0 false None)
           (mkPoint 20 500) (Some (mkRect 0 0 1919 1079)) eq_refl).
Defined.

(** Snapping is stable: when the screen leaves at least 30 pixels between
    the two snapped positions, a snapped coordinate snaps to itself, and
    so does every coordinate away from both edges. *)
Theorem button_snap_axis_idempotent (v size lo hi : Z) :
  (lo + 30 <= hi - size)%Z ->
  Button.snap_axis (Button.snap_axis v size lo hi) size lo hi
  = Button.snap_axis v size lo hi.
Proof.
  intro Hroom. unfold Button.snap_axis, SNAP_THRESHOLD.
  destruct (Z.ltb_spec (Z.abs (v - lo)) 25) as [H1 | H1].
  - destruct (Z.ltb_spec (Z.abs (lo + 5 - lo)) 25); [reflexivity | lia].
  - destruct (Z.ltb_spec (Z.abs (v + size - hi)) 25) as [H2 | H2].
    + destruct (Z.ltb_spec (Z.abs (hi - size - 5 - lo)) 25); [lia |].
      destruct (Z.ltb_spec (Z.abs (hi - size - 5 + size - hi)) 25);
        [reflexivity | lia].
    + destruct (Z.ltb_spec (Z.abs (v - lo)) 25); [lia |].
      destruct (Z.ltb_spec (Z.abs (v + size - hi)) 25); [lia | reflexivity].
Qed.

Lemma button_snap_axis_idempotent_witness :
  Button.snap_axis (Button.snap_axis 1850 64 0 1919) 64 0 1919
  = Button.snap_axis 1850 64 0 1919.
Proof. apply button_snap_axis_idempotent. vm_compute. discriminate. Defined.

(** On a screen too narrow for that, snapping oscillates: the position
    snapped to the far edge lies within the threshold of the near edge and
    snaps back to it. *)
Theorem button_snap_axis_narrow_screen (v size lo hi : Z) :
  (hi - size - 30 < lo)%Z -> (lo <= hi - size - 5)%Z ->
  (25 <= Z.abs (v - lo))%Z -> (Z.abs (v + size - hi) < 25)%Z ->
  Button.snap_axis v size lo hi = (hi - size - 5)%Z
  /\ Button.snap_axis (hi - size - 5) size lo hi = (lo + 5)%Z.
Proof.
  intros Hnarrow Hfit Hfar Hnear. unfold Button.snap_axis, SNAP_THRESHOLD.
  destruct (Z.ltb_spec (Z.abs (v - lo)) 25); [lia |].
  destruct (Z.ltb_spec (Z.abs (v + size - hi)) 25); [| lia].
  split; [reflexivity |].
  destruct (Z.ltb_spec (Z.abs (hi - size - 5 - lo)) 25); [reflexivity | lia].
Qed.

Lemma button_snap_axis_narrow_screen_witness :
  Button.snap_axis 30 64 0 90 = (90 - 64 - 5)%Z
  /\ Button.snap_axis (90 - 64 - 5) 64 0 90 = (0 + 5)%Z.
Proof.
  apply button_snap_axis_narrow_screen; vm_compute;
    first [reflexivity | discriminate].
Defined.

Lemma button_drag_keeps_press (moves : list (QPoint * option QRect)) :
  forall self,
    Button.is_dragging (Button.drag self moves) = Button.is_dragging self
    /\ Button.click_pos (Button.drag self moves) = Button.click_pos self
    /\ Button.drag_start_pos (Button.drag self moves)
       = Button.drag_start_pos self
    /\ Button.btn_size (Button.drag self moves) = Button.btn_size self.
Proof.
  unfold Button.drag.
  induction moves as [| m ms IH]; intro self; cbn [fold_left]; [auto |].
  destruct (IH (Button.mouseMoveEvent self (fst m) (snd m)))
    as [H1 [H2 [H3 H4]]].
  rewrite H1, H2, H3, H4. unfold Button.mouseMoveEvent.
  destruct (Button.is_dragging self) eqn:E; cbn; auto.
Qed.

(** Moves do not accumulate: after a left press, however many move
    events arrive, the button is where the last one alone would have put
    it. *)
Theorem button_last_move_decides (self : Button.FloatingButton)
        (press : QPoint) (moves : list (QPoint * option QRect))
        (last_pos : QPoint) (last_screen : option QRect) :
  let pressed := Button.mousePressEvent self LeftButton press in
  Button.pos (Button.drag pressed (moves ++ [(last_pos, last_screen)]))
  = Button.pos (Button.mouseMoveEvent pressed last_pos last_screen).
Proof.
  cbn zeta. set (pressed := Button.mousePressEvent self LeftButton press).
  pose proof (button_drag_keeps_press moves pressed) as H.
  unfold Button.drag in *. rewrite fold_left_app. cbn [fold_left fst snd].
  set (d := fold_left _ moves pressed) in *.
  destruct H as [H1 [H2 [H3 H4]]].
  unfold Button.mouseMoveEvent. rewrite H1.
  cbn [Button.is_dragging pressed Button.mousePressEvent MouseButton_eqb
       Button.pos].
  unfold Button.drag_position. now rewrite H2, H3, H4.
Qed.

(** Click or drag is decided by the end points alone: after a left press
    at [press] and any moves, the release at [release] calls [show_ring]
    exactly when the Manhattan distance from [press] to [release] is less
    than 10, ends the drag, and saves the position the button then has. *)
Theorem button_click_detection (self : Button.FloatingButton)
        (press release : QPoint) (moves : list (QPoint * option QRect)) :
  let pressed := Button.mousePressEvent self LeftButton press in
  let dragged := Button.drag pressed moves in
  let '(released, show) := Button.mouseReleaseEvent dragged release in
  (show = true <->
   (Z.abs (x release - x press) + Z.abs (y release - y press) < 10)%Z)
  /\ Button.is_dragging released = false
  /\ Button.saved_position released = Some (Button.pos dragged)
  /\ Button.pos released = Button.pos dragged.
Proof.
  cbn zeta. set (pressed := Button.mousePressEvent self LeftButton press).
  destruct (button_drag_keeps_press moves pressed) as [H1 [H2 _]].
  unfold Button.mouseReleaseEvent. rewrite H1, H2.
  cbn [pressed Button.mousePressEvent MouseButton_eqb Button.is_dragging
       Button.click_pos SMART_POSITION].
  unfold Button.manhattanLength, Button.QPoint_sub. cbn [x y].
  rewrite Z.ltb_lt. cbn. repeat split; auto.
Qed.

(** Without a left press before it, neither a move nor a release has any
    effect: the button does not move, nothing is saved and no ring is
    shown. *)
Theorem button_ignores_moves_without_press (self : Button.FloatingButton)
        (button : MouseButton) (p q r : QPoint) (screen : option QRect) :
  Button.is_dragging self = false ->
  button <> LeftButton ->
  let s1 := Button.mousePressEvent self button p in
  let s2 := Button.mouseMoveEvent s1 q screen in
  Button.mouseReleaseEvent s2 r = (self, false).
Proof.
  intros Hd Hb. cbn zeta.
  assert (E : Button.mousePressEvent self button p = self).
  { unfold Button.mousePressEvent. destruct button; try reflexivity.
    now destruct Hb. }
  rewrite E. unfold Button.mouseMoveEvent. rewrite Hd.
  unfold Button.mouseReleaseEvent. now rewrite Hd.
Qed.

Lemma button_ignores_moves_without_press_witness :
  let self := Button.mkButton 64 (mkPoint 300 300) false (mkPoint 0 0)
                              (mkPoint 0 0) 0 false None in
  Button.mouseReleaseEvent
    (Button.mouseMoveEvent
       (Button.mousePressEvent self RightButton (mkPoint 310 310))
       (mkPoint 500 500) None)
    (mkPoint 500 500)
  = (self, false).
Proof.
  apply button_ignores_moves_without_press; [reflexivity | discriminate].
Defined.

(** ** Listing the windows *)

Example get_windows_sample :
  get_windows
    (Some ("0x01200003  0 brave-browser.Brave-browser  host Rocq - Brave"
           ++ String "010"%char
              "0x01400007 -1 pcmanfm-desktop.Pcmanfm  host pcmanfm"
           ++ String "010"%char
              "0x02000001  1 code.Code  host main.py  "
           ++ String "010"%char "0x02000002  1 xterm.XTerm  host")%string)
  = [mkWindow "0x01200003" "Brave" "Rocq - Brave";
     mkWindow "0x02000001" "VSCode" "main.py"].
Proof. reflexivity. Qed.

Lemma lstrip_app (s : string) : exists a, s = (a ++ lstrip s)%string.
Proof.
  induction s as [| c s [a IH]]; [now exists ""%string |].
  cbn [lstrip]. destruct (is_space c).
  - exists (String c a). cbn. now rewrite <- IH.
  - now exists ""%string.
Qed.

Lemma rstrip_app (s : string) : exists b, s = (rstrip s ++ b)%string.
Proof.
  induction s as [| c s [b IH]]; [now exists ""%string |].
  cbn [rstrip]. destruct (rstrip s) as [| d r] eqn:E.
  - destruct (is_space c).
    + exists (String c s). reflexivity.
    + exists b. cbn in *. now rewrite <- IH.
  - exists b. cbn in *. now rewrite <- IH.
Qed.

Lemma strip_app (s : string) : exists a b, s = (a ++ strip s ++ b)%string.
Proof.
  destruct (lstrip_app s) as [a Ha]. destruct (rstrip_app (lstrip s)) as [b Hb].
  exists a, b. unfold strip. now rewrite <- Hb.
Qed.

Lemma lower_append (a b : string) :
  lower (a ++ b) = (lower a ++ lower b)%string.
Proof. induction a; cbn; [reflexivity | now rewrite IHa]. Qed.

Lemma contains_lower_strip (p s : string) :
  contains p (lower (strip s)) = true -> contains p (lower s) = true.
Proof.
  destruct (strip_app s) as [a [b H]]. rewrite H at 2.
  rewrite !contains_app. intros [a' [b' E]].
  exists (lower a ++ a')%string, (b' ++ lower b)%string.
  rewrite !lower_append, E, !append_assoc. reflexivity.
Qed.

Lemma rstrip_cons (c : ascii) (s : string) :
  rstrip (String c s)
  = match rstrip s with
    | EmptyString => if is_space c then EmptyString else String c EmptyString
    | r => String c r
    end.
Proof. reflexivity. Qed.

Lemma rstrip_idempotent (s : string) : rstrip (rstrip s) = rstrip s.
Proof.
  induction s as [| c s IH]; [reflexivity |].
  rewrite rstrip_cons. destruct (rstrip s) as [| d r] eqn:E.
  - destruct (is_space c) eqn:Ec; [reflexivity |].
    rewrite rstrip_cons. cbn [rstrip]. now rewrite Ec.
  - rewrite rstrip_cons, IH. reflexivity.
Qed.

Lemma lstrip_head (s : string) :
  match lstrip s with
  | EmptyString => True
  | String c _ => is_space c = false
  end.
Proof.
  induction s as [| c s IH]; [exact I |].
  cbn [lstrip]. destruct (is_space c) eqn:E; [exact IH | exact E].
Qed.

Lemma rstrip_head (c : ascii) (s : string) :
  is_space c = false -> exists r, rstrip (String c s) = String c r.
Proof.
  intro Hc. cbn [rstrip]. destruct (rstrip s) as [| d r].
  - rewrite Hc. now exists ""%string.
  - now exists (String d r).
Qed.

Lemma strip_idempotent (s : string) : strip (strip s) = strip s.
Proof.
  unfold strip. pose proof (lstrip_head s) as Hh.
  destruct (lstrip s) as [| c u]; [reflexivity |].
  destruct (rstrip_head c u Hh) as [r Hr].
  assert (E : lstrip (rstrip (String c u)) = rstrip (String c u)).
  { rewrite Hr. cbn [lstrip]. now rewrite Hh. }
  rewrite E. apply rstrip_idempotent.
Qed.

Lemma parse_lines_In (w : Window) (lines : list string) :
  In w (parse_lines lines) ->
  exists line, In line lines /\ parse_line line = Some w.
Proof.
  induction lines as [| l ls IH]; cbn [parse_lines]; [intros [] |].
  destruct (parse_line l) as [w0 |] eqn:E.
  - intros [<- | Hin].
    + exists l. split; [now left | exact E].
    + destruct (IH Hin) as [line [H1 H2]]. exists line. split; [now right | exact H2].
  - intro Hin. destruct (IH Hin) as [line [H1 H2]].
    exists line. split; [now right | exact H2].
Qed.

(** What a line that yields a window looks like. *)
Lemma parse_line_Some (line : string) (w : Window) :
  parse_line line = Some w ->
  exists win_id desktop part2 part3 title_ more,
    split_ws 4 line = win_id :: desktop :: part2 :: part3 :: title_ :: more
    /\ desktop <> "-1"
    /\ any_in ignore_classes (lower (before_dot part2)) = false
    /\ any_in ignore_titles (lower title_) = false
    /\ strip title_ <> ""
    /\ w = mkWindow win_id
                    (dict_get app_map (lower (before_dot part2))
                              (capitalize (lower (before_dot part2))))
                    (strip title_).
Proof.
  unfold parse_line. destruct (String.eqb (strip line) ""); [discriminate |].
  destruct (split_ws 4 line) as [| win_id [| desktop [| part2 [| part3
                                 [| title_ more]]]]]; try discriminate.
  destruct (String.eqb_spec desktop "-1"); [discriminate |].
  destruct (any_in ignore_classes _) eqn:Ec; [discriminate |].
  destruct (any_in ignore_titles _) eqn:Et; [discriminate |].
  destruct (String.eqb_spec (strip title_) ""); [discriminate |].
  intros [= <-]. exists win_id, desktop, part2, part3, title_, more.
  repeat split; auto.
Qed.

Lemma get_windows_In (r : option string) (w : Window) :
  In w (get_windows r) -> exists line, parse_line line = Some w.
Proof.
  destruct r as [stdout |]; cbn [get_windows]; [| intros []].
  intro Hin. destruct (parse_lines_In _ _ Hin) as [line [_ H]]. now exists line.
Qed.

(** Every window [get_windows] returns has a title that is not empty,
    carries no leading or trailing whitespace, and contains none of the
    ignored words "float", "floating button" and "desktop" in any
    letter case. *)
Theorem get_windows_titles (run_result : option string) (w : Window) :
  In w (get_windows run_result) ->
  title w <> ""
  /\ strip (title w) = title w
  /\ forall word, In word ignore_titles ->
                  contains word (lower (title w)) = false.
Proof.
  intro Hin. destruct (get_windows_In _ _ Hin) as [line Hline].
  destruct (parse_line_Some _ _ Hline)
    as [win_id [desktop [part2 [part3 [title_ [more
        [_ [_ [_ [Hign [Hne ->]]]]]]]]]]].
  cbn [title]. split; [exact Hne |]. split; [apply strip_idempotent |].
  intros word Hword.
  destruct (contains word (lower (strip title_))) eqn:E; [| reflexivity].
  apply contains_lower_strip in E.
  unfold any_in in Hign.
  assert (Hex : existsb (fun x => contains x (lower title_)) ignore_titles
                = true)
    by (apply existsb_exists; now exists word).
  congruence.
Qed.

Lemma get_windows_titles_witness :
  let w := mkWindow "0x01" "Xterm" "shell" in
  title w <> ""
  /\ strip (title w) = title w
  /\ forall word, In word ignore_titles ->
                  contains word (lower (title w)) = false.
Proof.
  apply (get_windows_titles (Some "0x01  0 xterm.XTerm  host  shell  ")).
  left. reflexivity.
Defined.

(** ** Fields without whitespace *)

Lemma take_token_no_space (s : string) :
  no_space (fst (take_token s)) = true.
Proof.
  induction s as [| c s IH]; [reflexivity |].
  cbn [take_token]. destruct (is_space c) eqn:E; [reflexivity |].
  destruct (take_token s) as [tok rest]. cbn [fst no_space] in *.
  now rewrite E, IH.
Qed.

Lemma split_ws_fields (n : nat) :
  forall (s : string) (k : nat) (field : string),
    (k < n)%nat ->
    nth_error (split_ws n s) k = Some field ->
    field <> "" /\ no_space field = true.
Proof.
  induction n as [| n IH]; intros s k field Hk Hnth; [lia |].
  cbn [split_ws] in Hnth. pose proof (lstrip_head s) as Hh.
  destruct (lstrip s) as [| c u]; [now destruct k |].
  pose proof (take_token_no_space (String c u)) as Hns.
  cbn [take_token] in Hns, Hnth. rewrite Hh in Hns, Hnth.
  destruct (take_token u) as [tok rest]. cbn [fst] in Hns.
  destruct k as [| k]; cbn [nth_error] in Hnth.
  - injection Hnth as <-. split; [discriminate | exact Hns].
  - apply (IH rest k field); [lia | exact Hnth].
Qed.

Lemma is_space_lower_ascii (c : ascii) :
  is_space (lower_ascii c) = is_space c.
Proof. destruct c as [[] [] [] [] [] [] [] []]; reflexivity. Qed.

Lemma is_space_upper_ascii (c : ascii) :
  is_space (upper_ascii c) = is_space c.
Proof. destruct c as [[] [] [] [] [] [] [] []]; reflexivity. Qed.

Lemma no_space_lower (s : string) : no_space (lower s) = no_space s.
Proof.
  induction s as [| c s IH]; [reflexivity |].
  cbn [lower no_space]. now rewrite is_space_lower_ascii, IH.
Qed.

Lemma no_space_capitalize (s : string) : no_space (capitalize s) = no_space s.
Proof.
  destruct s as [| c s]; [reflexivity |].
  cbn [capitalize no_space]. now rewrite is_space_upper_ascii, no_space_lower.
Qed.

Lemma no_space_before_dot (s : string) :
  no_space s = true -> no_space (before_dot s) = true.
Proof.
  induction s as [| c s IH]; [reflexivity |].
  cbn [before_dot no_space]. intro H. apply andb_true_iff in H.
  destruct H as [Hc Hs]. destruct (Ascii.eqb c "."); [reflexivity |].
  cbn [no_space]. now rewrite Hc, IH.
Qed.

Lemma no_space_app_map (k default : string) :
  no_space default = true -> no_space (dict_get app_map k default) = true.
Proof.
  intro H. unfold app_map. cbn [dict_get].
  repeat match goal with
         | |- context [if ?b then _ else _] => destruct b; [reflexivity |]
         end.
  exact H.
Qed.

Lemma no_space_no_blank (s : string) :
  no_space s = true -> contains " " s = false.
Proof.
  intro H. destruct (contains " " s) eqn:E; [| reflexivity].
  apply contains_app in E. destruct E as [a [b ->]].
  exfalso. induction a as [| c a IH]; cbn in H; [discriminate |].
  apply andb_true_iff in H. now apply IH.
Qed.

Lemma get_windows_fields (run_result : option string) (w : Window) :
  In w (get_windows run_result) ->
  id w <> ""
  /\ no_space (id w) = true
  /\ no_space (app w) = true.
Proof.
  intro Hin. destruct (get_windows_In _ _ Hin) as [line Hline].
  destruct (parse_line_Some _ _ Hline)
    as [win_id [desktop [part2 [part3 [title_ [more [Hparts [_ [_ [_ [_ ->]]]]]]]]]]].
  cbn [id app].
  destruct (split_ws_fields 4 line 0 win_id) as [Hne Hns];
    [lia | now rewrite Hparts |].
  destruct (split_ws_fields 4 line 2 part2) as [_ Hns2];
    [lia | now rewrite Hparts |].
  repeat split; auto.
  apply no_space_app_map.
  rewrite no_space_capitalize, no_space_lower.
  now apply no_space_before_dot.
Qed.

(** Every window [get_windows] returns has an id that is not empty and
    holds no whitespace, and an application name without whitespace. *)
Theorem get_windows_ids_and_apps (run_result : option string) (w : Window) :
  In w (get_windows run_result) ->
  id w <> ""
  /\ no_space (id w) = true
  /\ no_space (app w) = true.
Proof. exact (get_windows_fields run_result w). Qed.

Lemma get_windows_ids_and_apps_witness :
  let w := mkWindow "0x01" "Xterm" "shell" in
  id w <> "" /\ no_space (id w) = true /\ no_space (app w) = true.
Proof.
  apply (get_windows_ids_and_apps
           (Some "0x01  0 xterm.XTerm  host  shell  ")).
  left. reflexivity.
Defined.

(** ** Output without windows *)

Lemma lstrip_all_space (s : string) : all_space s = true -> lstrip s = "".
Proof.
  induction s as [| c s IH]; [reflexivity |].
  cbn [all_space lstrip]. intro H. apply andb_true_iff in H.
  destruct H as [Hc Hs]. rewrite Hc. now apply IH.
Qed.

(** When [wmctrl] cannot be run, or prints nothing but whitespace,
    [get_windows] returns the empty list and [show_ring] opens no ring. *)
Theorem no_output_no_ring :
  (get_windows None = [] /\ show_ring None = None)
  /\ (forall stdout, all_space stdout = true ->
        get_windows (Some stdout) = [] /\ show_ring (Some stdout) = None).
Proof.
  split; [split; reflexivity |].
  intros stdout H.
  assert (E : get_windows (Some stdout) = []).
  { cbn [get_windows]. unfold strip. now rewrite (lstrip_all_space _ H). }
  split; [exact E |]. unfold show_ring. now rewrite E.
Qed.

Lemma no_output_no_ring_witness :
  get_windows (Some "   ") = [] /\ show_ring (Some "   ") = None.
Proof. apply (proj2 no_output_no_ring). reflexivity. Defined.

(** A ring that [show_ring] opens is built from the windows listed, and
    its first paint gives the keyboard at least one entry to go to. *)
Theorem show_ring_has_entries (run_result : option string)
        (ring : WindowRing) :
  show_ring run_result = Some ring ->
  ring = WindowRing_init (get_windows run_result)
  /\ Permutation (flat_windows (paintEvent ring)) (get_windows run_result)
  /\ flat_windows (paintEvent ring) <> [].
Proof.
  unfold show_ring. destruct (get_windows run_result) as [| w ws] eqn:E;
    [discriminate |].
  intros [= <-]. split; [reflexivity |].
  assert (Hp : Permutation
                 (flat_windows (paintEvent (WindowRing_init (w :: ws))))
                 (w :: ws)).
  { rewrite flat_windows_paintEvent. now apply windows_of_sorted_perm. }
  split; [exact Hp |]. intro Hnil. rewrite Hnil in Hp.
  apply Permutation_nil in Hp. discriminate.
Qed.

Lemma show_ring_has_entries_witness :
  let r := Some "0x01  0 xterm.XTerm  host  shell  " in
  let ring := WindowRing_init (get_windows r) in
  ring = WindowRing_init (get_windows r)
  /\ Permutation (flat_windows (paintEvent ring)) (get_windows r)
  /\ flat_windows (paintEvent ring) <> [].
Proof.
  apply (show_ring_has_entries
           (Some "0x01  0 xterm.XTerm  host  shell  ")).
  reflexivity.
Defined.

(** ** The icon cache *)

Section IconsFacts.
Variable Pixmap : Type.

Lemma cache_get_set (cache : IconCache Pixmap) (k : string)
      (v : option Pixmap) :
  cache_get Pixmap (cache_set Pixmap cache k v) k = Some v.
Proof.
  induction cache as [| [k' v'] rest IH]; cbn [cache_set cache_get].
  - now rewrite String.eqb_refl.
  - destruct (String.eqb k' k) eqn:E; cbn [cache_get]; rewrite E; auto.
Qed.

Lemma cache_get_set_other (cache : IconCache Pixmap) (k k' : string)
      (v : option Pixmap) :
  k' <> k ->
  cache_get Pixmap (cache_set Pixmap cache k v) k'
  = cache_get Pixmap cache k'.
Proof.
  intro Hne. induction cache as [| [k0 v0] rest IH];
    cbn [cache_set cache_get].
  - destruct (String.eqb_spec k k'); [congruence | reflexivity].
  - destruct (String.eqb_spec k0 k) as [-> | Hk]; cbn [cache_get].
    + destruct (String.eqb_spec k k'); [congruence | reflexivity].
    + now rewrite IH.
Qed.
End IconsFacts.

(** Once [get_app_icon] has returned for a name, asking again gives the
    same pixmap and leaves the cache as it is, whatever the icon theme
    has become in between: the theme is not looked at again.  The pixmaps
    cached for other names are not touched by the first call. *)
Theorem get_app_icon_cached (Pixmap : Type)
        (theme theme' : string -> option Pixmap)
        (cache cache' : IconCache Pixmap) (app_name : string)
        (pix : option Pixmap) :
  get_app_icon Pixmap theme cache app_name = Some (pix, cache') ->
  get_app_icon Pixmap theme' cache' app_name = Some (pix, cache')
  /\ forall other, other <> app_name ->
       cache_get Pixmap cache' other = cache_get Pixmap cache other.
Proof.
  unfold get_app_icon.
  destruct (cache_get Pixmap cache app_name) as [p |] eqn:Hget.
  - intros [= <- <-]. rewrite Hget. split; [reflexivity | auto].
  - destruct (icon_names app_name) as [names |]; [| discriminate].
    intros [= <- <-]. rewrite cache_get_set. split; [reflexivity |].
    intros other Hne. now apply cache_get_set_other.
Qed.

Lemma get_app_icon_cached_witness :
  let theme := fun name : string =>
                 if String.eqb name "firefox" then Some 7%nat else None in
  get_app_icon nat (fun _ => None) [("Firefox", Some 7%nat)] "Firefox"
  = Some (Some 7%nat, [("Firefox", Some 7%nat)])
  /\ forall other, other <> "Firefox" ->
       cache_get nat [("Firefox", Some 7%nat)] other = cache_get nat [] other.
Proof.
  exact (get_app_icon_cached nat
           (fun name : string =>
              if String.eqb name "firefox" then Some 7%nat else None)
           (fun _ => None) [] [("Firefox", Some 7%nat)] "Firefox"
           (Some 7%nat) eq_refl).
Defined.

(** For the hub of every window [get_windows] lists, the icon lookup
    returns: the group key holds no blank, so building the candidate
    names cannot raise. *)
Theorem get_app_icon_returns_for_listed_windows (Pixmap : Type)
        (theme : string -> option Pixmap) (cache : IconCache Pixmap)
        (run_result : option string) (w : Window) :
  In w (get_windows run_result) ->
  exists pix cache',
    get_app_icon Pixmap theme cache (_normalize_app_name (app w))
    = Some (pix, cache').
Proof.
  intro Hin.
  destruct (get_windows_fields _ _ Hin) as [_ [_ Happ]].
  assert (Hkey : no_space (_normalize_app_name (app w)) = true).
  { destruct (normalize_with_range lower (app w))
      as [H | [H | [H | [H | [H | [H | []]]]]]];
      unfold _normalize_app_name; rewrite <- H; try reflexivity.
    exact Happ. }
  apply no_space_no_blank in Hkey.
  unfold get_app_icon.
  destruct (cache_get Pixmap cache _) as [p |]; [now eexists; eexists |].
  unfold icon_names. rewrite Hkey. now eexists; eexists.
Qed.

Lemma get_app_icon_returns_for_listed_windows_witness :
  exists pix cache',
    get_app_icon nat (fun _ => None) []
                 (_normalize_app_name (app (mkWindow "0x01" "Xterm" "shell")))
    = Some (pix, cache').
Proof.
  apply (get_app_icon_returns_for_listed_windows nat (fun _ => None) []
           (Some "0x01  0 xterm.XTerm  host  shell  ")).
  left. reflexivity.
Defined.

(** ** The centre text *)




(** ** Closing the ring and the peek timer *)



Lemma requests_name_snapshot_windows_witness :
  exists w, In w [winA; winB] /\ id w = request_id (Peek "0x01").
Proof.
  apply (requests_name_snapshot_windows [winA; winB]
           [EvAnim 1; EvPaint; EvMouseMove 400 140; EvPeekTimeout (Exits 0)]).
  change (run (WindowRing_init [winA; winB])
              [EvAnim 1; EvPaint; EvMouseMove 400 140;
               EvPeekTimeout (Exits 0)])
    with (run ring_hovering [EvPeekTimeout (Exits 0)]).
  rewrite ring_hovering_eq. left. reflexivity.
Defined.

